(** * android/base/Log.cpp: the logging facility of the emulator

    A shallow embedding of [qemu/android/base/Log.cpp] and the properties of
    its message buffer, its formatting operators, its dispatcher and its
    errno-preserving record.

    Data model of the target (the x86-64 hosts the emulator is built for):
    [int] and [unsigned] are 32 bits wide, [long], [long long] and [size_t]
    are 64 bits wide, [char] is one signed byte.  Arithmetic on [size_t]
    wraps modulo [2^64] and is written out as such. *)

From Stdlib Require Import ZArith NArith List String Ascii Bool Lia.
Import ListNotations.
Local Open Scope Z_scope.

(** ** Bytes, C strings and machine integers *)

Definition bytes := list ascii.

(** A string literal, as the bytes it holds before its terminator. *)
Definition lit (s : string) : bytes := list_ascii_of_string s.

Definition NUL : ascii := ascii_of_N 0.
Definition LF : ascii := ascii_of_N 10.

Definition is_nul (c : ascii) : bool := (N_of_ascii c =? 0)%N.

(** The bytes a [const char*] designates as a C string: those before the
    first null byte of the memory it points to. *)
Fixpoint cstr (mem : bytes) : bytes :=
  match mem with
  | [] => []
  | c :: rest => if is_nul c then [] else c :: cstr rest
  end.

Definition len (b : bytes) : Z := Z.of_nat (List.length b).

Definition strlen (mem : bytes) : Z := len (cstr mem).

Definition SIZE_MODULUS : Z := 2 ^ 64.
Definition INT32_MAX : Z := 2 ^ 31 - 1.

(** Conversion to [size_t]: reduction modulo [2^64]. *)
Definition size_t (z : Z) : Z := z mod SIZE_MODULUS.

(** Conversion to [unsigned int]: reduction modulo [2^32]. *)
Definition to_unsigned (z : Z) : Z := z mod 2 ^ 32.

(** Conversion to [int], as [int(messageLen)] does: the low 32 bits, read
    as a two's complement number. *)
Definition to_int (z : Z) : Z :=
  let m := z mod 2 ^ 32 in
  if m <? 2 ^ 31 then m else m - 2 ^ 32.

(** The byte that stores a [char] of value [ch]. *)
Definition byte_of_char (ch : Z) : ascii := ascii_of_N (Z.to_N (ch mod 256)).

(** ** The conversions of the printf family used by the file *)

Definition digit_char (d : Z) : ascii :=
  ascii_of_N (Z.to_N (if d <? 10 then 48 + d else 87 + d)).

(** Digits of [n] in [base], most significant first; [fuel] more digits may
    precede the one produced at each call. *)
Fixpoint digits_of (base : Z) (fuel : nat) (n : Z) (acc : bytes) : bytes :=
  let acc' := digit_char (n mod base) :: acc in
  match fuel with
  | O => acc'
  | S fuel' => if n <? base then acc' else digits_of base fuel' (n / base) acc'
  end.

(** [%u], [%lu], [%llu]: a 64-bit value has at most 20 decimal digits. *)
Definition fmt_u (v : Z) : bytes := digits_of 10 19 v [].

(** [%d], [%ld], [%lld]. *)
Definition fmt_d (v : Z) : bytes :=
  if v <? 0 then lit "-" ++ fmt_u (- v) else fmt_u v.

(** [%x] of an [unsigned int]: at most 8 digits, lowercase. *)
Definition fmt_x (v : Z) : bytes := digits_of 16 7 v [].

(** [%02x]: at least two digits, padded on the left with zeros. *)
Definition fmt_02x (v : Z) : bytes :=
  let d := fmt_x v in
  repeat (digit_char 0) (2 - List.length d) ++ d.

(** [%.*s]: the C string at [mem], cut after [prec] bytes; a negative
    precision is taken as if it were omitted. *)
Definition fmt_s_prec (prec : Z) (mem : bytes) : bytes :=
  if prec <? 0 then cstr mem else firstn (Z.to_nat prec) (cstr mem).

(** [snprintf(temp, size, ...)] where the conversion renders [out]: the
    array receives at most [size - 1] bytes and a terminator, and the call
    returns the length the full text has. *)
Definition snprintf (size : Z) (out : bytes) : bytes * Z :=
  (firstn (Z.to_nat (size - 1)) out ++ [NUL], len out).

(** ** Severities and parameters *)

Definition LogSeverity := Z.

(** Modelled from the spec: the severity constants of [android/base/Log.h],
    which is not among the sources: an ordinal enumeration INFO, WARNING,
    ERROR, FATAL by increasing urgency, counted from zero as the table of
    [severityLevelToString] indexes them, followed by their number. *)
Definition LOG_INFO : LogSeverity := 0.
Definition LOG_WARNING : LogSeverity := 1.
Definition LOG_ERROR : LogSeverity := 2.
Definition LOG_FATAL : LogSeverity := 3.
Definition LOG_NUM_SEVERITIES : LogSeverity := 4.

Record LogParams := mkLogParams {
  file : bytes;
  lineno : Z;
  severity : LogSeverity
}.

Definition kSeverityStrings : list bytes :=
  [lit "INFO"; lit "WARNING"; lit "ERROR"; lit "FATAL"].

Definition severityLevelToString (severity : LogSeverity) : bytes :=
  if (0 <=? severity) && (severity <? LOG_NUM_SEVERITIES)
  then nth (Z.to_nat severity) kSeverityStrings []
  else lit "UNKNOWN".

(** ** The process: the globals of the file and what it does to the world *)

(** [gLogOutput] is a pointer, null when it is [0].  Standard error is the
    text that reached the descriptor and the text still held by the stdio
    buffer. *)
Record Process := mkProcess {
  gLogOutput : Z;
  gDcheckLevel : bool;
  errno : Z;
  stderr_written : bytes;
  stderr_pending : bytes
}.

(** A call either returns, or ends the process through [exit], or never
    returns. *)
Inductive Result (A : Type) : Type :=
| Returns (a : A) (p : Process)
| Exits (status : Z) (p : Process)
| Hangs.
Arguments Returns {A} a p.
Arguments Exits {A} status p.
Arguments Hangs {A}.

(** What the file takes from outside: the bytes found in memory that
    [malloc] and [realloc] hand out and nothing wrote yet, the text
    [strerror] gives for a code, the text [%p] renders for a pointer, the
    value a library call may leave in [errno], and the virtual [logMessage]
    of the object a [LogOutput*] points to. *)
Record Environment := mkEnvironment {
  uninit : nat -> ascii;
  strerror : Z -> bytes;
  fmt_p : Z -> bytes;
  libc_errno : Z -> Z;
  LogOutput_logMessage : Z -> LogParams -> bytes -> Z -> Process -> Result unit
}.

Definition set_errno (e : Z) (p : Process) : Process :=
  mkProcess (gLogOutput p) (gDcheckLevel p) e (stderr_written p) (stderr_pending p).

(** ** LogStream *)

(** [mString] is the block the pointer designates; the null pointer is the
    empty block. *)
Record LogStream := mkLogStream {
  mParams : LogParams;
  mString : bytes;
  mSize : Z;
  mCapacity : Z
}.

Definition LogStream_new (file : bytes) (lineno : Z) (severity : LogSeverity)
  : LogStream :=
  mkLogStream (mkLogParams file lineno severity) [] 0 0.

(** Modelled from the spec: the accessors [string()], [size()] and
    [params()] of [android/base/Log.h], which is not among the sources:
    the buffered text, its length and the parameters of the record, as the
    destructors submit them for dispatch. *)
Definition LogStream_string (s : LogStream) : bytes := mString s.
Definition LogStream_size (s : LogStream) : Z := mSize s.
Definition LogStream_params (s : LogStream) : LogParams := mParams s.

(** The text a stream holds: its first [mSize] bytes. *)
Definition content (s : LogStream) : bytes :=
  firstn (Z.to_nat (mSize s)) (mString s).

Definition memcpy (dst : bytes) (off : Z) (src : bytes) (n : Z) : bytes :=
  firstn (Z.to_nat off) dst ++ firstn (Z.to_nat n) src
    ++ skipn (Z.to_nat (off + n)) dst.

Definition store (dst : bytes) (i : Z) (b : ascii) : bytes :=
  firstn (Z.to_nat i) dst ++ b :: skipn (Z.to_nat (i + 1)) dst.

(** One turn of [newCapacity += (newCapacity >> 2) + 32]. *)
Definition grow_step (newCapacity : Z) : Z :=
  size_t (newCapacity + Z.shiftr newCapacity 2 + 32).

(** The loop [while (newCapacity < newSize) ...], tested once: [inl] when the
    body ran, [inr] when the loop is left. *)
Definition grow_once (newSize newCapacity : Z) : Z + Z :=
  if newCapacity <? newSize then inl (grow_step newCapacity) else inr newCapacity.

(** The loop tested up to [2^d] times. *)
Fixpoint grow_pow2 (d : nat) (newSize newCapacity : Z) : Z + Z :=
  match d with
  | O => grow_once newSize newCapacity
  | S d' =>
      match grow_pow2 d' newSize newCapacity with
      | inl c => grow_pow2 d' newSize c
      | inr r => inr r
      end
  end.

(** The whole loop.  [newCapacity] takes one of [2^64] values: a run that
    is not over after [2^64] tests is back at a value it had, and goes on
    for ever. *)
Definition grow (newSize newCapacity : Z) : option Z :=
  match grow_pow2 64 newSize newCapacity with
  | inr r => Some r
  | inl _ => None
  end.

Section WithEnvironment.

Variable env : Environment.

(** [realloc] is trusted to succeed, as the file does: the block keeps its
    bytes, up to its new size [n]. *)
Definition realloc (block : bytes) (n : Z) : bytes :=
  firstn (Z.to_nat n) block
    ++ map (uninit env)
         (seq (List.length block) (Z.to_nat n - List.length block)).

(** [LogStream::append(const char* str, size_t len)]; [str] is the memory
    at the pointer.  [None] when the growth loop does not end. *)
Definition append (s : LogStream) (str : bytes) (len : Z)
  : option LogStream :=
  if (len =? 0) || (len >? INT32_MAX) then Some s
  else
    let newSize := size_t (mSize s + len) in
    let grown :=
      if newSize >? mCapacity s then
        match grow newSize (mCapacity s) with
        | Some newCapacity =>
            Some (realloc (mString s) (size_t (newCapacity + 1)), newCapacity)
        | None => None
        end
      else Some (mString s, mCapacity s) in
    match grown with
    | None => None
    | Some (block, capacity) =>
        let block' := memcpy block (mSize s) str len in
        let size' := size_t (mSize s + len) in
        Some (mkLogStream (mParams s) (store block' size' NUL) size' capacity)
    end.

(** [LogStream::append(const char* str)]; [None] is the null pointer. *)
Definition append_cstr (s : LogStream) (str : option bytes)
  : option LogStream :=
  match str with
  | None => Some s
  | Some mem =>
      if is_nul (hd NUL mem) then Some s else append s mem (strlen mem)
  end.

(** Modelled from the spec: [operator<<] for a [const char*] argument, of
    [android/base/Log.h], which is not among the sources: the C-string
    append. *)
Definition operator_shl_cstr (s : LogStream) (str : option bytes)
  : option LogStream :=
  append_cstr s str.

(** [operator<<(char ch)]; [ch] is the value of the argument, which
    ranges over [-128..127] where [char] is signed and over [0..255] where
    it is not.  It is promoted to [int] and read by [%02x] as an
    [unsigned int]. *)
Definition operator_shl_char (s : LogStream) (ch : Z) : option LogStream :=
  if (32 <=? ch) && (ch <? 127) then append s [byte_of_char ch] 1
  else
    let temp := fst (snprintf 5 (lit "\x" ++ fmt_02x (to_unsigned ch))) in
    append s temp 4.

(** The body shared by the integer operators: [out] is what the conversion
    renders, [temp] has 20 bytes and [ret] is converted to [size_t]. *)
Definition append_formatted (s : LogStream) (out : bytes) : option LogStream :=
  let (temp, ret) := snprintf 20 out in
  append s temp (size_t ret).

(** [operator<<(int)], [(unsigned)], [(long)], [(unsigned long)],
    [(long long)], [(unsigned long long)]; [v] is the value of the
    argument. *)
Definition operator_shl_int (s : LogStream) (v : Z) := append_formatted s (fmt_d v).
Definition operator_shl_unsigned (s : LogStream) (v : Z) := append_formatted s (fmt_u v).
Definition operator_shl_long (s : LogStream) (v : Z) := append_formatted s (fmt_d v).
Definition operator_shl_ulong (s : LogStream) (v : Z) := append_formatted s (fmt_u v).
Definition operator_shl_llong (s : LogStream) (v : Z) := append_formatted s (fmt_d v).
Definition operator_shl_ullong (s : LogStream) (v : Z) := append_formatted s (fmt_u v).

(** [operator<<(const void* ptr)]. *)
Definition operator_shl_ptr (s : LogStream) (ptr : Z) :=
  append_formatted s (fmt_p env ptr).

(** A run of appends, one chunk after the other, each with its length. *)
Fixpoint append_all (s : LogStream) (chunks : list bytes) : option LogStream :=
  match chunks with
  | [] => Some s
  | chunk :: rest =>
      match append s chunk (len chunk) with
      | Some s' => append_all s' rest
      | None => None
      end
  end.

(** [LogStream::~LogStream]: the sizes are reset and the block is freed. *)
Definition LogStream_delete (s : LogStream) : LogStream :=
  mkLogStream (mParams s) [] 0 0.

(** ** LogString *)

(** What the constructor comes to: the block it keeps, or a write past the
    end of the block it allocated, or a loop that is not over. *)
Inductive LogStringResult : Type :=
| Built (mString : bytes)
| Overrun (capacity : Z)
| Unfinished.

(** The [for (;;)] of [LogString::LogString] on the [message] block of
    [malloc(100)]; [out] is the text the format and its arguments render.
    [vsnprintf(message, capacity, ...)] stores up to [capacity - 1] bytes
    of it and a terminator, and returns its length, or a negative value
    when the length is not an [int].  The block is never reallocated: a
    call that stores more than 100 bytes leaves it. *)
Fixpoint LogString_loop (fuel : nat) (capacity : Z) (out : bytes)
  : LogStringResult :=
  match fuel with
  | O => Unfinished
  | S fuel' =>
      let stored :=
        if capacity =? 0 then 0 else Z.min (len out) (capacity - 1) + 1 in
      if stored >? 100 then Overrun capacity
      else
        let text := firstn (Z.to_nat (capacity - 1)) out ++ [NUL] in
        let message :=
          text ++ map (uninit env)
                    (seq (List.length text) (100 - List.length text)) in
        let ret := if len out >? INT32_MAX then -1 else len out in
        if (ret >=? 0) && (size_t ret <? capacity) then Built message
        else LogString_loop fuel' (size_t (capacity * 2)) out
  end.

(** [capacity] is doubled modulo [2^64] and starts at 100: after 62
    doublings it is zero and stays so. *)
Definition LogString_new (out : bytes) : LogStringResult :=
  LogString_loop 64 100 out.

(** ** Dispatch *)

(** [fprintf(stderr, ...)] of the rendered [text], then [fflush(stderr)]. *)
Definition fprintf_stderr (text : bytes) (p : Process) : Process :=
  mkProcess (gLogOutput p) (gDcheckLevel p) (libc_errno env (errno p))
            (stderr_written p) (stderr_pending p ++ text).

Definition fflush_stderr (p : Process) : Process :=
  mkProcess (gLogOutput p) (gDcheckLevel p) (libc_errno env (errno p))
            (stderr_written p ++ stderr_pending p) [].

(** The text of ["%s:%s:%d:%.*s\n"]. *)
Definition default_text (params : LogParams) (message : bytes)
  (messageLen : Z) : bytes :=
  cstr (severityLevelToString (severity params)) ++ lit ":"
    ++ cstr (file params) ++ lit ":"
    ++ fmt_d (lineno params) ++ lit ":"
    ++ fmt_s_prec (to_int messageLen) message ++ [LF].

Definition defaultLogMessage (params : LogParams) (message : bytes)
  (messageLen : Z) (p : Process) : Result unit :=
  let p1 := fprintf_stderr (default_text params message messageLen) p in
  let p2 := fflush_stderr p1 in
  if severity params >=? LOG_FATAL then Exits 1 p2 else Returns tt p2.

Definition logMessage (params : LogParams) (message : bytes)
  (messageLen : Z) (p : Process) : Result unit :=
  if negb (gLogOutput p =? 0) then
    LogOutput_logMessage env (gLogOutput p) params message messageLen p
  else defaultLogMessage params message messageLen p.

(** ** The globals *)

Definition dcheckIsEnabled (p : Process) : bool := gDcheckLevel p.

Definition setDcheckLevel (enabled : bool) (p : Process) : bool * Process :=
  (gDcheckLevel p,
   mkProcess (gLogOutput p) enabled (errno p) (stderr_written p) (stderr_pending p)).

Definition getMinLogLevel : LogSeverity := LOG_INFO.

(** [testing::LogOutput::setNewOutput]. *)
Definition setNewOutput (newOutput : Z) (p : Process) : Z * Process :=
  (gLogOutput p,
   mkProcess newOutput (gDcheckLevel p) (errno p) (stderr_written p) (stderr_pending p)).

(** ** LogMessage and ErrnoLogMessage *)

Definition LogMessage_new := LogStream_new.

(** [LogMessage::~LogMessage]. *)
Definition LogMessage_delete (mStream : LogStream) (p : Process) : Result unit :=
  logMessage (LogStream_params mStream) (LogStream_string mStream)
             (LogStream_size mStream) p.

Record ErrnoLogMessage := mkErrnoLogMessage {
  eStream : LogStream;
  mErrno : Z
}.

Definition ErrnoLogMessage_new (file : bytes) (line : Z)
  (severity : LogSeverity) (errnoCode : Z) : ErrnoLogMessage :=
  mkErrnoLogMessage (LogStream_new file line severity) errnoCode.

(** [ErrnoLogMessage::~ErrnoLogMessage]; [strerror] may leave its own value
    in [errno]. *)
Definition ErrnoLogMessage_delete (m : ErrnoLogMessage) (p : Process)
  : Result unit :=
  match operator_shl_cstr (eStream m) (Some (lit "Error message: ")) with
  | None => Hangs
  | Some s1 =>
      let p1 := set_errno (libc_errno env (errno p)) p in
      match operator_shl_cstr s1 (Some (strerror env (mErrno m))) with
      | None => Hangs
      | Some s2 =>
          match logMessage (LogStream_params s2) (LogStream_string s2)
                           (LogStream_size s2) p1 with
          | Returns _ p2 => Returns tt (set_errno (mErrno m) p2)
          | Exits status p2 => Exits status p2
          | Hangs => Hangs
          end
      end
  end.

End WithEnvironment.

(** ** Predicates of the statements *)

(** A stream as the constructor and the appends leave it: either no block,
    or a block of [mCapacity + 1] bytes with a null byte at [mSize]. *)
Definition wf (s : LogStream) : Prop :=
  0 <= mSize s <= mCapacity s /\
  mCapacity s + 1 < SIZE_MODULUS /\
  ((mString s = [] /\ mCapacity s = 0) \/
   (len (mString s) = mCapacity s + 1 /\
    nth_error (mString s) (Z.to_nat (mSize s)) = Some NUL)).

(** No computation on [size_t] that grows a block to hold [n] bytes wraps
    around; every [n] up to [2^63] is such. *)
Definition no_wrap (n : Z) : Prop := n + n / 4 + 32 < SIZE_MODULUS.

Definition total_length (chunks : list bytes) : Z :=
  fold_right (fun chunk acc => len chunk + acc) 0 chunks.

(** The value of [newCapacity] after [n] turns of the loop body. *)
Definition grow_iter (n : N) (newCapacity : Z) : Z :=
  N.iter n grow_step newCapacity.

(** The one capacity [c] below [2^64] with [c + c / 4 + 32 = t], when there
    is one. *)
Definition grow_step_inverse (t : Z) : Z :=
  4 * ((t - 32) / 5) + (t - 32) mod 5.

(** The capacities from which the loop reaches [2^64 - 1]. *)
Definition reach_max : list Z :=
  [1584563250285286636; 1952551441549164591; 1980704062856608327;
   2440689301936455770; 2475880078570760440; 3050861627420569744;
   3094850098213450582; 3813577034275712212; 3868562622766813259;
   4283946371449599446; 4766971292844640297; 4835703278458516605;
   5354932964311999339; 5635468348917054441; 5849823758641100101;
   5958714116055800403; 6044629098073145788; 6693666205389999205;
   7044335436146318083; 7294262020664611166; 7312279698301375158;
   7448392645069750535; 7555786372591432267; 8367082756737499038;
   8805419295182897635; 9117827525830763989; 9140349622876718979;
   9310490806337188200; 9444732965739290365; 10444439303812462636;
   10458853445921873829; 11006774118978622075; 11397284407288455018;
   11425437028595898755; 11638113507921485282; 11805916207174112988;
   13055549129765578327; 13073566807402342318; 13758467648723277625;
   13786620270030721361; 14246605509110568804; 14281796285744873475;
   14547641884901856634; 14757395258967641267; 16025045859195870576;
   16319436412206972940; 16341958509252927929; 17198084560904097063;
   17233275337538401733; 17808256886388211037; 17852245357181091875;
   18184552356127320824; 18446744073709551615].

Definition in_reach_max (c : Z) : bool := existsb (Z.eqb c) reach_max.

(** [reach_max] holds every capacity that steps into it. *)
Definition reach_max_closed : bool :=
  forallb (fun y =>
    forallb (fun c =>
      implb ((0 <=? c) && (c <? SIZE_MODULUS) && (grow_step c =? y))
            (in_reach_max c))
      [grow_step_inverse y; grow_step_inverse (y + SIZE_MODULUS)])
    reach_max.

Definition bytes_eqb (a b : bytes) : bool :=
  if list_eq_dec ascii_dec a b then true else false.

(** The [temp] array of [operator<<(char)] after its [snprintf]. *)
Definition escape_temp (ch : Z) : bytes :=
  fst (snprintf 5 (lit "\x" ++ fmt_02x (to_unsigned ch))).

(** A block of [2^31] bytes, one more than an append accepts. *)
Definition large_chunk : bytes := repeat "a"%char (Z.to_nat (2 ^ 31)).

(** ** Instances used to exercise the statements *)


(** A process in which the sink at address 1 is installed and [errno]
    is 2. *)
Definition sink_process : Process := mkProcess 1 false 2 [] [].


(** A sink whose [logMessage] does nothing. *)
Definition silent_sink (this : Z) (params : LogParams) (message : bytes)
  (messageLen : Z) (p : Process) : Result unit := Returns tt p.

(** A sink that keeps what it receives, the address of the sink first, on
    the pending text of the process, and clobbers [errno]. *)
Definition recording_sink (this : Z) (params : LogParams) (message : bytes)
  (messageLen : Z) (p : Process) : Result unit :=
  Returns tt
    (mkProcess (gLogOutput p) (gDcheckLevel p) 5 (stderr_written p)
       (stderr_pending p ++ fmt_d this ++ lit "|" ++ file params ++ lit "|"
          ++ fmt_d (lineno params) ++ lit "|" ++ fmt_d (severity params)
          ++ lit "|" ++ firstn (Z.to_nat messageLen) message ++ lit "|"
          ++ fmt_d messageLen)).

Definition glibc_fmt_p (ptr : Z) : bytes :=
  if ptr =? 0 then lit "(nil)" else lit "0x" ++ digits_of 16 15 ptr [].

Definition demo_strerror (e : Z) : bytes :=
  if e =? 2 then lit "No such file or directory" else lit "Unknown error".

Definition demo_env : Environment :=
  mkEnvironment (fun _ => "?"%char) demo_strerror glibc_fmt_p (fun _ => 22)
                silent_sink.

Definition recording_env : Environment :=
  mkEnvironment (fun _ => "?"%char) demo_strerror glibc_fmt_p (fun _ => 22)
                recording_sink.

Definition fresh_process : Process := mkProcess 0 false 0 [] [].

Definition demo_stream : LogStream := LogStream_new (lit "f.cc") 10 LOG_WARNING.


(** * Properties *)

(** ** Severity names *)

(** C8: [severityLevelToString] returns the matching uppercase literal for
    INFO, WARNING, ERROR and FATAL, and "UNKNOWN" for every other value,
    negative or large; it is a total function of the severity alone. *)
Theorem severityLevelToString_names (sev : LogSeverity) :
  (sev = LOG_INFO -> severityLevelToString sev = lit "INFO") /\
  (sev = LOG_WARNING -> severityLevelToString sev = lit "WARNING") /\
  (sev = LOG_ERROR -> severityLevelToString sev = lit "ERROR") /\
  (sev = LOG_FATAL -> severityLevelToString sev = lit "FATAL") /\
  (sev <> LOG_INFO -> sev <> LOG_WARNING -> sev <> LOG_ERROR ->
   sev <> LOG_FATAL -> severityLevelToString sev = lit "UNKNOWN").
Proof.
  repeat split; try (intros ->; reflexivity).
  unfold LOG_INFO, LOG_WARNING, LOG_ERROR, LOG_FATAL.
  intros H0 H1 H2 H3. unfold severityLevelToString, LOG_NUM_SEVERITIES.
  destruct (0 <=? sev) eqn:Hlo; [|reflexivity].
  destruct (sev <? 4) eqn:Hhi; [|reflexivity].
  apply Z.leb_le in Hlo. apply Z.ltb_lt in Hhi. lia.
Qed.

Lemma severityLevelToString_names_witness :
  severityLevelToString LOG_FATAL = lit "FATAL" /\
  severityLevelToString (-1) = lit "UNKNOWN" /\
  severityLevelToString 99 = lit "UNKNOWN".
Proof.
  split; [|split].
  - apply (severityLevelToString_names LOG_FATAL). reflexivity.
  - apply (severityLevelToString_names (-1)); discriminate.
  - apply (severityLevelToString_names 99); discriminate.
Defined.

(** ** The growth loop *)

Lemma size_t_small (z : Z) : 0 <= z < SIZE_MODULUS -> size_t z = z.
Proof. intros H. unfold size_t. apply Z.mod_small. exact H. Qed.

Lemma size_t_range (z : Z) : 0 <= size_t z < SIZE_MODULUS.
Proof. unfold size_t, SIZE_MODULUS. apply Z.mod_pos_bound. reflexivity. Qed.

Lemma grow_step_no_wrap (T c : Z) :
  no_wrap T -> 0 <= c < T ->
  grow_step c = c + c / 4 + 32 /\ c + 32 <= grow_step c /\
  grow_step c + 1 < SIZE_MODULUS.
Proof.
  unfold no_wrap, grow_step, SIZE_MODULUS. intros HT Hc.
  rewrite Z.shiftr_div_pow2 by lia. change (2 ^ 2) with 4.
  assert (Hq : 0 <= c / 4 <= T / 4).
  { split; [apply Z.div_pos; lia | apply Z.div_le_mono; lia]. }
  rewrite size_t_small by (unfold SIZE_MODULUS; lia). lia.
Qed.

Lemma grow_iter_succ (n : N) (c : Z) :
  grow_iter (N.succ n) c = grow_step (grow_iter n c).
Proof. unfold grow_iter. apply N.iter_succ. Qed.

Lemma grow_iter_add (n m : N) (c : Z) :
  grow_iter (n + m) c = grow_iter n (grow_iter m c).
Proof. unfold grow_iter. apply N.iter_add. Qed.

(** What [2^d] tests of the loop come to, in terms of its turns. *)
Lemma grow_pow2_turns (T : Z) (d : nat) : forall c,
  match grow_pow2 d T c with
  | inl c' =>
      c' = grow_iter (2 ^ N.of_nat d) c /\
      forall k, (k < 2 ^ N.of_nat d)%N -> grow_iter k c < T
  | inr r =>
      exists n, (n < 2 ^ N.of_nat d)%N /\ r = grow_iter n c /\ T <= r /\
                forall k, (k < n)%N -> grow_iter k c < T
  end.
Proof.
  induction d as [|d IH]; intros c.
  - cbn [grow_pow2]. unfold grow_once.
    destruct (c <? T) eqn:Hc.
    + apply Z.ltb_lt in Hc. split; [reflexivity|].
      intros k Hk. change (2 ^ N.of_nat 0)%N with 1%N in Hk.
      assert (k = 0%N) by lia. subst k. exact Hc.
    + apply Z.ltb_ge in Hc. exists 0%N. repeat split; try easy.
      intros k Hk. lia.
  - cbn [grow_pow2].
    assert (Hpow : (2 ^ N.of_nat (S d) = 2 ^ N.of_nat d + 2 ^ N.of_nat d)%N).
    { rewrite Nat2N.inj_succ, N.pow_succ_r'. lia. }
    pose proof (IH c) as H1.
    destruct (grow_pow2 d T c) as [c1|r1].
    + destruct H1 as [Hc1 Hlow1].
      pose proof (IH c1) as H2.
      destruct (grow_pow2 d T c1) as [c2|r2].
      * destruct H2 as [Hc2 Hlow2]. split.
        -- rewrite Hpow, grow_iter_add, <- Hc1. exact Hc2.
        -- intros k Hk.
           destruct (N.ltb_spec k (2 ^ N.of_nat d)) as [Hlt|Hge].
           ++ apply Hlow1. exact Hlt.
           ++ replace k with ((k - 2 ^ N.of_nat d) + 2 ^ N.of_nat d)%N by lia.
              rewrite grow_iter_add, <- Hc1. apply Hlow2. lia.
      * destruct H2 as (n & Hn & Hr & HT & Hlow2).
        exists (n + 2 ^ N.of_nat d)%N. repeat split.
        -- lia.
        -- rewrite grow_iter_add, <- Hc1. exact Hr.
        -- exact HT.
        -- intros k Hk.
           destruct (N.ltb_spec k (2 ^ N.of_nat d)) as [Hlt|Hge].
           ++ apply Hlow1. exact Hlt.
           ++ replace k with ((k - 2 ^ N.of_nat d) + 2 ^ N.of_nat d)%N by lia.
              rewrite grow_iter_add, <- Hc1. apply Hlow2. lia.
    + destruct H1 as (n & Hn & Hr & HT & Hlow). exists n.
      repeat split; try assumption. lia.
Qed.

(** While the loop runs below a target that does not wrap, every turn adds
    at least 32. *)
Lemma grow_iter_climbs (T c : Z) :
  no_wrap T -> 0 <= c -> forall n,
  (forall k, (k < n)%N -> grow_iter k c < T) ->
  c + 32 * Z.of_N n <= grow_iter n c /\
  (n = 0%N \/ grow_iter n c + 1 < SIZE_MODULUS).
Proof.
  intros HT Hc n. induction n as [|n IH] using N.peano_ind; intros Hlow.
  - split; [unfold grow_iter; simpl; lia | left; reflexivity].
  - rewrite grow_iter_succ.
    assert (Hprev : grow_iter n c < T) by (apply Hlow; lia).
    destruct IH as [Hge _]; [intros k Hk; apply Hlow; lia|].
    destruct (grow_step_no_wrap T (grow_iter n c) HT) as (_ & Hup & Hfit); [lia|].
    split; [lia | right; exact Hfit].
Qed.

(** The loop ends whenever its target does not wrap, at the first value of
    [newCapacity] that is not below the target. *)
Lemma grow_total (T c : Z) :
  no_wrap T -> 0 <= c ->
  exists n r,
    grow T c = Some r /\ r = grow_iter n c /\ T <= r /\
    (forall k, (k < n)%N ->
       grow_iter k c < T /\ grow_iter k c + 32 <= grow_iter (N.succ k) c) /\
    32 * Z.of_N n < Z.max 0 (T - c) + 32 /\
    (n = 0%N \/ r + 1 < SIZE_MODULUS).
Proof.
  intros HT Hc. unfold grow.
  pose proof (grow_pow2_turns T 64 c) as H.
  destruct (grow_pow2 64 T c) as [c'|r].
  - exfalso. destruct H as [_ Hlow].
    assert (Hbig : (forall k, (k < 2 ^ 63)%N -> grow_iter k c < T)).
    { intros k Hk. apply Hlow.
      change (2 ^ N.of_nat 64)%N with (2 ^ 64)%N. 
      assert (2 ^ 63 < 2 ^ 64)%N by reflexivity. lia. }
    destruct (grow_iter_climbs T c HT Hc (2 ^ 63)%N Hbig) as [Hge _].
    assert (Hlast : grow_iter (2 ^ 63) c < T).
    { apply Hlow. reflexivity. }
    unfold no_wrap, SIZE_MODULUS in HT.
    assert (0 <= T / 4 \/ T < 0) as [Hq|Hq].
    { destruct (Z.lt_ge_cases T 0); [right; lia | left; apply Z.div_pos; lia]. }
    + change (Z.of_N (2 ^ 63)) with (2 ^ 63) in Hge. lia.
    + lia.
  - destruct H as (n & _ & Hr & HTr & Hlow).
    exists n, r. split; [reflexivity|]. split; [exact Hr|]. split; [exact HTr|].
    destruct (grow_iter_climbs T c HT Hc n Hlow) as [Hge Hfit].
    split; [|split].
    + intros k Hk. split; [apply Hlow; exact Hk|].
      rewrite grow_iter_succ.
      assert (Hk0 : forall j, (j < k)%N -> grow_iter j c < T).
      { intros j Hj. apply Hlow. lia. }
      destruct (grow_iter_climbs T c HT Hc k Hk0) as [Hgek _].
      destruct (grow_step_no_wrap T (grow_iter k c) HT) as (_ & Hup & _).
      { split; [lia | apply Hlow; exact Hk]. }
      exact Hup.
    + destruct (N.eq_dec n 0) as [->|Hn]; [simpl; lia|].
      assert (Hpred : grow_iter (N.pred n) c < T) by (apply Hlow; lia).
      assert (Hk0 : forall j, (j < N.pred n)%N -> grow_iter j c < T).
      { intros j Hj. apply Hlow. lia. }
      destruct (grow_iter_climbs T c HT Hc (N.pred n) Hk0) as [Hgek _].
      assert (Z.of_N (N.pred n) = Z.of_N n - 1) by lia. lia.
    + subst r. exact Hfit.
Qed.

(** *** A start from which the loop never ends *)

Lemma grow_step_preimage (c : Z) :
  0 <= c < SIZE_MODULUS ->
  c = grow_step_inverse (grow_step c) \/
  c = grow_step_inverse (grow_step c + SIZE_MODULUS).
Proof.
  unfold grow_step, grow_step_inverse, size_t, SIZE_MODULUS. intros Hc.
  rewrite Z.shiftr_div_pow2 by lia. change (2 ^ 2) with 4.
  change (2 ^ 64) with 18446744073709551616 in *.
  Z.to_euclidean_division_equations. lia.
Qed.

Lemma reach_max_closed_true : reach_max_closed = true.
Proof. vm_compute. reflexivity. Qed.

Lemma reach_max_step (c : Z) :
  0 <= c < SIZE_MODULUS ->
  in_reach_max (grow_step c) = true -> in_reach_max c = true.
Proof.
  intros Hc Hin. unfold in_reach_max in Hin.
  apply existsb_exists in Hin. destruct Hin as (y & Hy & Heq).
  apply Z.eqb_eq in Heq.
  pose proof reach_max_closed_true as Hcl. unfold reach_max_closed in Hcl.
  rewrite forallb_forall in Hcl. specialize (Hcl y Hy).
  rewrite forallb_forall in Hcl.
  assert (Hcand : In c [grow_step_inverse y; grow_step_inverse (y + SIZE_MODULUS)]).
  { rewrite <- Heq. destruct (grow_step_preimage c Hc) as [H|H].
    - left. symmetry. exact H.
    - right. left. symmetry. exact H. }
  specialize (Hcl c Hcand).
  assert (Hguard : (0 <=? c) && (c <? SIZE_MODULUS) && (grow_step c =? y) = true).
  { rewrite !andb_true_iff. repeat split.
    - apply Z.leb_le. lia.
    - apply Z.ltb_lt. lia.
    - apply Z.eqb_eq. exact Heq. }
  rewrite Hguard in Hcl. exact Hcl.
Qed.

(** Outside [reach_max] the loop stays outside of it, hence below
    [2^64 - 1], for ever. *)
Lemma grow_iter_avoids_max (c : Z) :
  0 <= c < SIZE_MODULUS -> in_reach_max c = false ->
  forall n, grow_iter n c < SIZE_MODULUS - 1.
Proof.
  intros Hc Hout n.
  assert (Hinv : 0 <= grow_iter n c < SIZE_MODULUS /\
                 in_reach_max (grow_iter n c) = false).
  { induction n as [|n IH] using N.peano_ind.
    - unfold grow_iter. simpl. split; assumption.
    - rewrite grow_iter_succ. destruct IH as [Hr Ho]. split.
      + apply size_t_range.
      + destruct (in_reach_max (grow_step (grow_iter n c))) eqn:E; [|reflexivity].
        apply reach_max_step in E; [congruence | exact Hr]. }
  destruct Hinv as [Hr Ho].
  assert (grow_iter n c <> SIZE_MODULUS - 1).
  { intros E. rewrite E in Ho. vm_compute in Ho. discriminate. }
  lia.
Qed.

Lemma grow_never_ends (T c : Z) :
  (forall n, grow_iter n c < T) -> grow T c = None.
Proof.
  intros Hlow. unfold grow.
  pose proof (grow_pow2_turns T 64 c) as H.
  destruct (grow_pow2 64 T c) as [c'|r]; [reflexivity|].
  destruct H as (n & _ & Hr & HT & _). specialize (Hlow n). lia.
Qed.

(** ** Blocks of memory *)

Lemma write_block (blk str : bytes) (off n : nat) (b : ascii) :
  (off + n < List.length blk)%nat -> (n <= List.length str)%nat ->
  let blk' := firstn off blk ++ firstn n str ++ skipn (off + n) blk in
  let blk'' := firstn (off + n) blk' ++ b :: skipn (off + n + 1) blk' in
  List.length blk'' = List.length blk /\
  nth_error blk'' (off + n) = Some b /\
  firstn (off + n) blk'' = firstn off blk ++ firstn n str.
Proof.
  intros Hoff Hn blk' blk''.
  assert (Hl1 : List.length (firstn off blk) = off)
    by (rewrite length_firstn; lia).
  assert (Hl2 : List.length (firstn n str) = n)
    by (rewrite length_firstn; lia).
  assert (Hlen' : List.length blk' = List.length blk).
  { unfold blk'. rewrite !length_app, Hl1, Hl2, length_skipn. lia. }
  assert (Hpre : firstn (off + n) blk' = firstn off blk ++ firstn n str).
  { unfold blk'. rewrite app_assoc.
    rewrite firstn_app.
    rewrite length_app, Hl1, Hl2.
    replace (off + n - (off + n))%nat with 0%nat by lia.
    rewrite firstn_all2 by (rewrite length_app; lia).
    simpl. apply app_nil_r. }
  assert (Hlpre : List.length (firstn (off + n) blk') = (off + n)%nat)
    by (rewrite length_firstn; lia).
  repeat split.
  - unfold blk''. rewrite length_app, Hlpre. simpl. rewrite length_skipn. lia.
  - unfold blk''. rewrite nth_error_app2 by lia.
    rewrite Hlpre. replace (off + n - (off + n))%nat with 0%nat by lia.
    reflexivity.
  - unfold blk''. rewrite firstn_app, Hlpre.
    replace (off + n - (off + n))%nat with 0%nat by lia.
    rewrite firstn_firstn, Nat.min_id. simpl. rewrite app_nil_r. exact Hpre.
Qed.

Section Properties.

Variable env : Environment.

Lemma realloc_length (blk : bytes) (n : Z) :
  List.length (realloc env blk n) = Z.to_nat n.
Proof.
  unfold realloc. rewrite length_app, length_firstn, length_map, length_seq. lia.
Qed.

Lemma realloc_keeps (blk : bytes) (n : Z) (k : nat) :
  (k <= List.length blk)%nat -> (k <= Z.to_nat n)%nat ->
  firstn k (realloc env blk n) = firstn k blk.
Proof.
  intros Hk Hn. unfold realloc.
  rewrite firstn_app, length_firstn.
  replace (k - Nat.min (Z.to_nat n) (List.length blk))%nat with 0%nat by lia.
  simpl. rewrite app_nil_r, firstn_firstn. f_equal. lia.
Qed.

(** What a store of [n] bytes at the end of the text and of the
    terminator after them leaves in a block that has room for them. *)
Lemma store_memcpy (blk str : bytes) (size n cap : Z) :
  0 <= size -> 0 < n -> n <= len str -> size + n <= cap ->
  len blk = cap + 1 ->
  let blk' := store (memcpy blk size str n) (size + n) NUL in
  len blk' = cap + 1 /\
  nth_error blk' (Z.to_nat (size + n)) = Some NUL /\
  firstn (Z.to_nat (size + n)) blk'
    = firstn (Z.to_nat size) blk ++ firstn (Z.to_nat n) str.
Proof.
  intros Hs Hn Hstr Hcap Hblk. cbv zeta.
  set (blk' := store (memcpy blk size str n) (size + n) NUL).
  unfold len in *.
  pose proof (write_block blk str (Z.to_nat size) (Z.to_nat n) NUL) as H.
  cbv zeta in H.
  assert (E1 : Z.to_nat (size + n) = (Z.to_nat size + Z.to_nat n)%nat) by lia.
  assert (E2 : Z.to_nat (size + n + 1) = (Z.to_nat size + Z.to_nat n + 1)%nat) by lia.
  unfold blk', store, memcpy. rewrite E2, E1.
  destruct H as (H1 & H2 & H3); [lia | lia |].
  repeat split; [rewrite H1; lia | exact H2 | exact H3].
Qed.

(** An append that is neither empty nor over the ceiling, on a well-formed
    stream and below the wrap-around of [size_t]. *)
Lemma append_spec (s : LogStream) (str : bytes) (n : Z) :
  wf s -> 0 < n <= INT32_MAX -> n <= len str -> no_wrap (mSize s + n) ->
  exists s',
    append env s str n = Some s' /\ wf s' /\
    mSize s' = mSize s + n /\
    content s' = content s ++ firstn (Z.to_nat n) str /\
    nth_error (mString s') (Z.to_nat (mSize s')) = Some NUL /\
    mCapacity s <= mCapacity s' /\
    mParams s' = mParams s /\
    (mSize s + n <= mCapacity s ->
     mCapacity s' = mCapacity s /\ len (mString s') = len (mString s)) /\
    mCapacity s' <= Z.max (mCapacity s) (mSize s + n + (mSize s + n) / 4 + 32).
Proof.
  intros (Hsz & Hcapfit & Hblk) Hn Hstr Hnw.
  assert (HT : 0 <= mSize s + n < SIZE_MODULUS).
  { unfold no_wrap in Hnw. 
    assert (0 <= (mSize s + n) / 4) by (apply Z.div_pos; lia). lia. }
  unfold append.
  replace ((n =? 0) || (n >? INT32_MAX)) with false.
  2:{ symmetry. apply orb_false_iff. split; [apply Z.eqb_neq; lia|].
      rewrite Z.gtb_ltb. apply Z.ltb_ge. lia. }
  rewrite (size_t_small _ HT). cbv zeta.
  destruct (mSize s + n >? mCapacity s) eqn:Hcmp.
  - rewrite Z.gtb_ltb in Hcmp. apply Z.ltb_lt in Hcmp.
    destruct (grow_total (mSize s + n) (mCapacity s) Hnw) as
      (k & r & Hgrow & Hr & HTr & Hturns & Hcount & Hfit); [lia|].
    rewrite Hgrow.
    assert (Hk : k <> 0%N).
    { intros ->. unfold grow_iter in Hr. simpl in Hr. lia. }
    destruct Hfit as [Hfit|Hfit]; [contradiction|].
    assert (Hrbound : r <= mSize s + n + (mSize s + n) / 4 + 32).
    { assert (Hp : (N.pred k < k)%N) by lia.
      destruct (Hturns _ Hp) as [Hlow _].
      assert (Hr' : r = grow_step (grow_iter (N.pred k) (mCapacity s))).
      { rewrite Hr, <- grow_iter_succ. f_equal. lia. }
      assert (Hpos : 0 <= grow_iter (N.pred k) (mCapacity s)).
      { destruct (N.eq_dec (N.pred k) 0) as [E|E].
        - rewrite E. unfold grow_iter. simpl. lia.
        - replace (N.pred k) with (N.succ (N.pred (N.pred k))) by lia.
          rewrite grow_iter_succ. apply size_t_range. }
      destruct (grow_step_no_wrap _ _ Hnw (conj Hpos Hlow)) as (Hst & _ & _).
      rewrite Hr', Hst.
      assert (grow_iter (N.pred k) (mCapacity s) / 4 <= (mSize s + n) / 4)
        by (apply Z.div_le_mono; lia).
      lia. }
    rewrite (size_t_small (r + 1)) by lia.
    set (blk := realloc env (mString s) (r + 1)).
    assert (Hlen : len blk = r + 1).
    { unfold len, blk. rewrite realloc_length. lia. }
    assert (Hold : (Z.to_nat (mSize s) <= List.length (mString s))%nat).
    { destruct Hblk as [[He Hc]|[Hl _]].
      - rewrite He. simpl. lia.
      - unfold len in Hl. lia. }
    destruct (store_memcpy blk str (mSize s) n r) as (L1 & L2 & L3);
      try lia.
    eexists. split; [reflexivity|]. cbn [mSize mCapacity mString mParams].
    unfold wf, content. cbn [mSize mCapacity mString mParams].
    assert (Hkeep : firstn (Z.to_nat (mSize s)) blk
                    = firstn (Z.to_nat (mSize s)) (mString s)).
    { unfold blk. apply realloc_keeps; lia. }
    rewrite Hkeep in L3.
    repeat split; try lia; try assumption.
    + right. split; assumption.
  - rewrite Z.gtb_ltb in Hcmp. apply Z.ltb_ge in Hcmp.
    destruct Hblk as [[He Hc]|[Hl Hnul]]; [lia|].
    destruct (store_memcpy (mString s) str (mSize s) n (mCapacity s))
      as (L1 & L2 & L3); try lia.
    eexists. split; [reflexivity|]. cbn [mSize mCapacity mString mParams].
    unfold wf, content. cbn [mSize mCapacity mString mParams].
    repeat split; try lia; try assumption.
    + right. split; assumption.
Qed.

(** ** Appends that do nothing *)

Lemma cstr_empty_head (mem : bytes) : cstr mem = [] -> is_nul (hd NUL mem) = true.
Proof.
  destruct mem as [|c rest]; [reflexivity|]. simpl.
  destruct (is_nul c); [reflexivity | discriminate].
Qed.

Lemma append_skip (s : LogStream) (str : bytes) (n : Z) :
  n = 0 \/ INT32_MAX < n -> append env s str n = Some s.
Proof.
  intros H. unfold append.
  replace ((n =? 0) || (n >? INT32_MAX)) with true; [reflexivity|].
  symmetry. apply orb_true_iff. destruct H as [H|H].
  - left. apply Z.eqb_eq. exact H.
  - right. rewrite Z.gtb_ltb. apply Z.ltb_lt. exact H.
Qed.

(** C9: an append whose length is zero or above [INT32_MAX], and a C-string
    append whose argument is the null pointer or the empty string, return
    the stream as it was: length, capacity and contents are unchanged. *)
Theorem append_no_op (s : LogStream) (str : bytes) (n : Z) (mem : bytes) :
  (n = 0 \/ INT32_MAX < n -> append env s str n = Some s) /\
  append_cstr env s None = Some s /\
  (cstr mem = [] -> append_cstr env s (Some mem) = Some s).
Proof.
  split; [|split].
  - apply append_skip.
  - reflexivity.
  - intros H. unfold append_cstr. rewrite (cstr_empty_head mem H). reflexivity.
Qed.

(** ** C strings *)

Lemma cstr_firstn (mem : bytes) : firstn (List.length (cstr mem)) mem = cstr mem.
Proof.
  induction mem as [|c rest IH]; [reflexivity|]. simpl.
  destruct (is_nul c); [reflexivity|]. simpl. f_equal. exact IH.
Qed.

Lemma cstr_length (mem : bytes) : (List.length (cstr mem) <= List.length mem)%nat.
Proof.
  induction mem as [|c rest IH]; [simpl; lia|]. simpl.
  destruct (is_nul c); simpl; lia.
Qed.

Lemma cstr_no_nul (mem : bytes) : forall c, In c (cstr mem) -> is_nul c = false.
Proof.
  induction mem as [|b rest IH]; intros c Hc; [contradiction|].
  simpl in Hc. destruct (is_nul b) eqn:E; [contradiction|].
  destruct Hc as [<-|Hc]; [exact E | apply IH; exact Hc].
Qed.


Lemma no_wrap_le (a b : Z) : 0 <= a <= b -> no_wrap b -> no_wrap a.
Proof.
  unfold no_wrap. intros H Hb.
  assert (a / 4 <= b / 4) by (apply Z.div_le_mono; lia). lia.
Qed.

(** The C-string append adds the bytes before the terminator. *)
Lemma append_cstr_spec (s : LogStream) (mem : bytes) :
  wf s -> strlen mem <= INT32_MAX -> no_wrap (mSize s + strlen mem) ->
  exists s',
    append_cstr env s (Some mem) = Some s' /\ wf s' /\
    mSize s' = mSize s + strlen mem /\
    content s' = content s ++ cstr mem /\
    mCapacity s <= mCapacity s' /\
    mParams s' = mParams s.
Proof.
  intros Hwf Hmax Hnw. unfold append_cstr.
  destruct (is_nul (hd NUL mem)) eqn:E.
  - assert (Hc : cstr mem = []).
    { destruct mem as [|c rest]; [reflexivity|]. simpl in *. rewrite E. reflexivity. }
    exists s. unfold strlen, len. rewrite Hc. simpl.
    rewrite app_nil_r, Z.add_0_r.
    split; [reflexivity|]. split; [exact Hwf|].
    repeat split; try reflexivity; lia.
  - assert (Hpos : 0 < strlen mem).
    { unfold strlen, len. destruct mem as [|c rest]; [discriminate|].
      simpl in *. rewrite E. simpl. lia. }
    destruct (append_spec s mem (strlen mem) Hwf) as
      (s' & Ha & Hwf' & Hsz & Hct & _ & Hcap & Hpar & _).
    { lia. }
    { unfold strlen, len. pose proof (cstr_length mem). lia. }
    { exact Hnw. }
    exists s'. split; [exact Ha|]. split; [exact Hwf'|]. split; [exact Hsz|].
    split; [|split; assumption].
    rewrite Hct. f_equal. unfold strlen, len.
    rewrite Nat2Z.id. apply cstr_firstn.
Qed.

(** ** Runs of appends *)

Lemma total_length_nonneg (chunks : list bytes) : 0 <= total_length chunks.
Proof.
  induction chunks as [|c rest IH]; simpl; [lia|]. unfold len. lia.
Qed.

Lemma append_all_spec (chunks : list bytes) : forall s,
  wf s ->
  (forall chunk, In chunk chunks -> len chunk <= INT32_MAX) ->
  no_wrap (mSize s + total_length chunks) ->
  exists s',
    append_all env s chunks = Some s' /\ wf s' /\
    mSize s' = mSize s + total_length chunks /\
    content s' = content s ++ List.concat chunks /\
    mCapacity s <= mCapacity s' /\
    mParams s' = mParams s.
Proof.
  induction chunks as [|c rest IH]; intros s Hwf Hmax Hnw.
  - exists s. simpl. rewrite app_nil_r, Z.add_0_r.
    split; [reflexivity|]. split; [exact Hwf|].
    repeat split; try reflexivity; lia.
  - simpl in Hnw. simpl append_all.
    pose proof (total_length_nonneg rest) as Hrest.
    assert (Hlc : 0 <= len c) by (unfold len; lia).
    assert (Hs0 : 0 <= mSize s) by (destruct Hwf as [[? ?] _]; assumption).
    destruct (Z.eq_dec (len c) 0) as [Hz|Hnz].
    + assert (c = []).
      { unfold len in Hz. destruct c; [reflexivity | simpl in Hz; lia]. }
      subst c.
      change (len []) with 0 in *.
      rewrite append_skip by (left; reflexivity).
      destruct (IH s Hwf) as (s' & Ha & Hwf' & Hsz & Hct & Hcap & Hpar).
      { intros ch Hch. apply Hmax. right. exact Hch. }
      { eapply no_wrap_le; [|exact Hnw]. lia. }
      exists s'. simpl. change (len []) with 0.
      split; [exact Ha|]. split; [exact Hwf'|]. split; [lia|].
      repeat split; assumption.
    + destruct (append_spec s c (len c) Hwf) as
        (s1 & Ha1 & Hwf1 & Hsz1 & Hct1 & _ & Hcap1 & Hpar1 & _).
      { split; [lia | apply Hmax; left; reflexivity]. }
      { lia. }
      { eapply no_wrap_le; [|exact Hnw]. lia. }
      rewrite Ha1.
      destruct (IH s1 Hwf1) as (s' & Ha & Hwf' & Hsz & Hct & Hcap & Hpar).
      { intros ch Hch. apply Hmax. right. exact Hch. }
      { rewrite Hsz1. replace (mSize s + len c + total_length rest)
          with (mSize s + (len c + total_length rest)) by lia. exact Hnw. }
      exists s'. split; [exact Ha|]. split; [exact Hwf'|].
      split; [|split; [|split]].
      * rewrite Hsz, Hsz1. simpl. lia.
      * rewrite Hct, Hct1. simpl. rewrite <- app_assoc. f_equal. f_equal.
        unfold len. rewrite Nat2Z.id. apply firstn_all.
      * lia.
      * congruence.
Qed.

Lemma wf_new (f : bytes) (l : Z) (sev : LogSeverity) : wf (LogStream_new f l sev).
Proof.
  unfold wf, LogStream_new, SIZE_MODULUS. simpl.
  repeat split; try lia. left. split; reflexivity.
Qed.

(** C3 (as amended): for every run of appends to a fresh buffer whose chunks
    are each at most [INT32_MAX] bytes long and whose total length [L] does
    not make [size_t] wrap, the run ends, the length of the buffer is [L],
    its text is the chunks in order, its length is within its capacity,
    and when [L] is positive the byte at index [L] is null. *)
Theorem append_all_fresh (f : bytes) (l : Z) (sev : LogSeverity)
  (chunks : list bytes) :
  (forall chunk, In chunk chunks -> len chunk <= INT32_MAX) ->
  no_wrap (total_length chunks) ->
  exists s',
    append_all env (LogStream_new f l sev) chunks = Some s' /\
    mSize s' = total_length chunks /\
    content s' = List.concat chunks /\
    mSize s' <= mCapacity s' /\
    (0 < total_length chunks ->
     nth_error (mString s') (Z.to_nat (total_length chunks)) = Some NUL).
Proof.
  intros Hmax Hnw.
  destruct (append_all_spec chunks (LogStream_new f l sev) (wf_new f l sev) Hmax)
    as (s' & Ha & Hwf' & Hsz & Hct & _ & _).
  { simpl. exact Hnw. }
  simpl in Hsz, Hct. exists s'.
  split; [exact Ha|]. split; [exact Hsz|]. split; [exact Hct|]. split.
  - destruct Hwf' as [[_ H] _]. exact H.
  - intros Hpos. destruct Hwf' as (Hb & _ & [[He Hc]|[_ Hn]]).
    + lia.
    + rewrite <- Hsz. exact Hn.
Qed.

(** ** Termination of the append *)

(** C10: for every capacity and every append length [n] with
    [0 < n <= INT32_MAX], at every size a block in memory can have (growing
    to [size + n] does not wrap [size_t] around, as for every
    [size + n <= 2^63]), the growth loop started at the capacity leaves
    after finitely many turns, at most [(size + n - capacity) / 32 + 1] of
    them, each of which adds at least 32, with a value that is at least
    [size + n]; and the append returns. *)
Theorem append_terminates (s : LogStream) (str : bytes) (n : Z) :
  0 <= mSize s -> 0 <= mCapacity s -> 0 < n <= INT32_MAX ->
  no_wrap (mSize s + n) ->
  (exists turns r,
     grow (mSize s + n) (mCapacity s) = Some r /\
     r = grow_iter turns (mCapacity s) /\
     mSize s + n <= r /\
     (forall k, (k < turns)%N ->
        grow_iter k (mCapacity s) < mSize s + n /\
        grow_iter k (mCapacity s) + 32 <= grow_iter (N.succ k) (mCapacity s)) /\
     32 * Z.of_N turns < Z.max 0 (mSize s + n - mCapacity s) + 32) /\
  exists s', append env s str n = Some s'.
Proof.
  intros Hs Hc Hn Hnw.
  destruct (grow_total (mSize s + n) (mCapacity s) Hnw Hc) as
    (turns & r & Hgrow & Hr & HT & Hturns & Hcount & _).
  split.
  - exists turns, r. repeat split; try assumption; apply Hturns; assumption.
  - assert (HT' : 0 <= mSize s + n < SIZE_MODULUS).
    { unfold no_wrap in Hnw.
      assert (0 <= (mSize s + n) / 4) by (apply Z.div_pos; lia). lia. }
    unfold append.
    replace ((n =? 0) || (n >? INT32_MAX)) with false.
    2:{ symmetry. apply orb_false_iff. split; [apply Z.eqb_neq; lia|].
        rewrite Z.gtb_ltb. apply Z.ltb_ge. lia. }
    rewrite (size_t_small _ HT'). cbv zeta.
    destruct (mSize s + n >? mCapacity s).
    + rewrite Hgrow. eexists. reflexivity.
    + eexists. reflexivity.
Qed.

(** ** The integer operators *)

Lemma digits_of_length_le (base : Z) (fuel : nat) : 1 < base ->
  forall (k : nat) (n : Z) (acc : bytes),
  0 <= n < base ^ Z.of_nat (S k) ->
  (1 + List.length acc <= List.length (digits_of base fuel n acc)
   <= S k + List.length acc)%nat.
Proof.
  intros Hb. induction fuel as [|fuel IH]; intros k n acc Hn.
  - simpl. lia.
  - simpl. destruct (n <? base) eqn:E; [simpl; lia|].
    apply Z.ltb_ge in E.
    destruct k as [|k].
    + change (Z.of_nat 1) with 1 in Hn. rewrite Z.pow_1_r in Hn. lia.
    + assert (Hq : 0 <= n / base < base ^ Z.of_nat (S k)).
      { split; [apply Z.div_pos; lia|].
        apply Z.div_lt_upper_bound; [lia|].
        rewrite <- Z.pow_succ_r by lia. rewrite <- Nat2Z.inj_succ. apply Hn. }
      specialize (IH k (n / base) (digit_char (n mod base) :: acc) Hq).
      simpl in IH. lia.
Qed.

Lemma digits_of_length (base : Z) : 1 < base ->
  forall (fuel k : nat) (n : Z) (acc : bytes),
  (k <= fuel)%nat -> base ^ Z.of_nat k <= n < base ^ Z.of_nat (S k) ->
  List.length (digits_of base fuel n acc) = (S k + List.length acc)%nat.
Proof.
  intros Hb. induction fuel as [|fuel IH]; intros k n acc Hk Hn.
  - assert (k = 0%nat) by lia. subst k. reflexivity.
  - simpl. destruct (n <? base) eqn:E.
    + apply Z.ltb_lt in E. destruct k as [|k]; [reflexivity|].
      exfalso. assert (base ^ 1 <= base ^ Z.of_nat (S k)).
      { apply Z.pow_le_mono_r; lia. }
      rewrite Z.pow_1_r in H. lia.
    + apply Z.ltb_ge in E. destruct k as [|k].
      * change (Z.of_nat 1) with 1 in Hn. rewrite Z.pow_1_r in Hn. lia.
      * assert (Hq : base ^ Z.of_nat k <= n / base < base ^ Z.of_nat (S k)).
        { split.
          - apply Z.div_le_lower_bound; [lia|].
            rewrite <- Z.pow_succ_r by lia. rewrite <- Nat2Z.inj_succ. apply Hn.
          - apply Z.div_lt_upper_bound; [lia|].
            rewrite <- Z.pow_succ_r by lia. rewrite <- Nat2Z.inj_succ. apply Hn. }
        rewrite (IH k (n / base) _ ltac:(lia) Hq). simpl. lia.
Qed.

Lemma fmt_u_length (k : nat) (v : Z) :
  0 <= v < 10 ^ Z.of_nat (S k) -> 1 <= len (fmt_u v) <= Z.of_nat (S k).
Proof.
  intros Hv. unfold len, fmt_u.
  pose proof (digits_of_length_le 10 19 ltac:(lia) k v [] Hv) as H.
  change (List.length (@nil ascii)) with 0%nat in H. lia.
Qed.

Lemma fmt_d_length (k : nat) (v : Z) :
  - 10 ^ Z.of_nat k < v < 10 ^ Z.of_nat (S k) ->
  1 <= len (fmt_d v) <= Z.of_nat (S k).
Proof.
  intros Hv. unfold fmt_d. destruct (v <? 0) eqn:E.
  - apply Z.ltb_lt in E. destruct k as [|k].
    + change (Z.of_nat 0) with 0 in Hv. rewrite Z.pow_0_r in Hv. lia.
    + assert (H : 1 <= len (fmt_u (- v)) <= Z.of_nat (S k)).
      { apply fmt_u_length. lia. }
      unfold len in *. rewrite length_app.
      change (List.length (lit "-")) with 1%nat. lia.
  - apply Z.ltb_ge in E. apply fmt_u_length. lia.
Qed.

(** A rendered text of at most 19 bytes is appended whole. *)
Lemma append_formatted_whole (s : LogStream) (out : bytes) :
  wf s -> 0 < len out <= 19 -> no_wrap (mSize s + len out) ->
  exists s',
    append_formatted env s out = Some s' /\ wf s' /\
    mSize s' = mSize s + len out /\
    content s' = content s ++ out /\
    mParams s' = mParams s.
Proof.
  intros Hwf Hout Hnw. unfold append_formatted, snprintf.
  assert (Hfit : firstn (Z.to_nat (20 - 1)) out = out).
  { apply firstn_all2. unfold len in Hout. lia. }
  rewrite Hfit.
  rewrite size_t_small by (unfold SIZE_MODULUS; lia).
  destruct (append_spec s (out ++ [NUL]) (len out) Hwf) as
    (s' & Ha & Hwf' & Hsz & Hct & _ & _ & Hpar & _).
  { unfold INT32_MAX. lia. }
  { unfold len. rewrite length_app. simpl. lia. }
  { exact Hnw. }
  exists s'. split; [exact Ha|]. split; [exact Hwf'|]. split; [exact Hsz|].
  split; [|exact Hpar].
  rewrite Hct. f_equal. unfold len. rewrite Nat2Z.id.
  rewrite firstn_app, firstn_all, Nat.sub_diag. simpl. apply app_nil_r.
Qed.

(** A rendered text of 20 bytes loses its last byte to the terminator of
    the 20-byte array. *)
Lemma append_formatted_cut (s : LogStream) (out : bytes) :
  wf s -> len out = 20 -> no_wrap (mSize s + 20) ->
  exists s',
    append_formatted env s out = Some s' /\ wf s' /\
    mSize s' = mSize s + 20 /\
    content s' = content s ++ firstn 19 out ++ [NUL] /\
    mParams s' = mParams s.
Proof.
  intros Hwf Hout Hnw. unfold append_formatted, snprintf.
  rewrite Hout.
  rewrite size_t_small by (unfold SIZE_MODULUS; lia).
  change (Z.to_nat (20 - 1)) with 19%nat.
  assert (Hl : List.length (firstn 19 out ++ [NUL]) = 20%nat).
  { rewrite length_app, length_firstn. unfold len in Hout.
    cbn [List.length]. lia. }
  destruct (append_spec s (firstn 19 out ++ [NUL]) 20 Hwf) as
    (s' & Ha & Hwf' & Hsz & Hct & _ & _ & Hpar & _).
  { unfold INT32_MAX. lia. }
  { unfold len. lia. }
  { exact Hnw. }
  exists s'. split; [exact Ha|]. split; [exact Hwf'|]. split; [exact Hsz|].
  split; [|exact Hpar].
  rewrite Hct. f_equal. change (Z.to_nat 20) with 20%nat.
  apply firstn_all2. lia.
Qed.

Lemma no_wrap_20 (s : LogStream) (n : Z) :
  wf s -> 0 <= n <= 20 -> no_wrap (mSize s + 20) -> no_wrap (mSize s + n).
Proof.
  intros (Hs & _) Hn Hnw. eapply no_wrap_le; [|exact Hnw]. lia.
Qed.

(** Every [int] and every [unsigned] is streamed as its full decimal text,
    and the length of the stream grows by the length of that text. *)
Theorem operator_shl_32bit_whole (s : LogStream) (v : Z) :
  wf s -> no_wrap (mSize s + 20) ->
  (- 2 ^ 31 <= v < 2 ^ 31 ->
   exists s', operator_shl_int env s v = Some s' /\ wf s' /\
              content s' = content s ++ fmt_d v /\
              mSize s' = mSize s + len (fmt_d v)) /\
  (0 <= v < 2 ^ 32 ->
   exists s', operator_shl_unsigned env s v = Some s' /\ wf s' /\
              content s' = content s ++ fmt_u v /\
              mSize s' = mSize s + len (fmt_u v)).
Proof.
  intros Hwf Hnw. split; intros Hv.
  - assert (Hl : 1 <= len (fmt_d v) <= Z.of_nat 11).
    { apply fmt_d_length. change (Z.of_nat 10) with 10.
      change (Z.of_nat 11) with 11. lia. }
    destruct (append_formatted_whole s (fmt_d v) Hwf) as
      (s' & Ha & Hwf' & Hsz & Hct & _); [lia | apply no_wrap_20; [assumption|lia|assumption] |].
    exists s'. repeat (split; [assumption|]). assumption.
  - assert (Hl : 1 <= len (fmt_u v) <= Z.of_nat 10).
    { apply fmt_u_length. change (Z.of_nat 10) with 10. lia. }
    destruct (append_formatted_whole s (fmt_u v) Hwf) as
      (s' & Ha & Hwf' & Hsz & Hct & _); [lia | apply no_wrap_20; [assumption|lia|assumption] |].
    exists s'. repeat (split; [assumption|]). assumption.
Qed.

(** A 64-bit value whose decimal text has at most 19 bytes is streamed as
    that text: every signed value above [-10^18] and every unsigned value
    below [10^19]. *)
Theorem operator_shl_64bit_whole (s : LogStream) (v : Z) :
  wf s -> no_wrap (mSize s + 20) ->
  (- 10 ^ 18 < v < 2 ^ 63 ->
   exists s', operator_shl_llong env s v = Some s' /\
              operator_shl_long env s v = Some s' /\ wf s' /\
              content s' = content s ++ fmt_d v /\
              mSize s' = mSize s + len (fmt_d v)) /\
  (0 <= v < 10 ^ 19 ->
   exists s', operator_shl_ullong env s v = Some s' /\
              operator_shl_ulong env s v = Some s' /\ wf s' /\
              content s' = content s ++ fmt_u v /\
              mSize s' = mSize s + len (fmt_u v)).
Proof.
  intros Hwf Hnw. split; intros Hv.
  - assert (Hl : 1 <= len (fmt_d v) <= Z.of_nat 19).
    { apply fmt_d_length. change (Z.of_nat 18) with 18.
      change (Z.of_nat 19) with 19. lia. }
    destruct (append_formatted_whole s (fmt_d v) Hwf) as
      (s' & Ha & Hwf' & Hsz & Hct & _); [lia | apply no_wrap_20; [assumption|lia|assumption] |].
    exists s'. repeat (split; [assumption|]). assumption.
  - assert (Hl : 1 <= len (fmt_u v) <= Z.of_nat 19).
    { apply fmt_u_length. change (Z.of_nat 19) with 19. lia. }
    destruct (append_formatted_whole s (fmt_u v) Hwf) as
      (s' & Ha & Hwf' & Hsz & Hct & _); [lia | apply no_wrap_20; [assumption|lia|assumption] |].
    exists s'. repeat (split; [assumption|]). assumption.
Qed.

(** A 64-bit value whose decimal text has 20 bytes, an unsigned one from
    [10^19] on or a signed one down from [-10^18], is streamed as the first
    19 bytes of its text followed by a null byte. *)
Theorem operator_shl_64bit_cut (s : LogStream) (v : Z) :
  wf s -> no_wrap (mSize s + 20) ->
  (10 ^ 19 <= v < 2 ^ 64 ->
   exists s', operator_shl_ullong env s v = Some s' /\
              operator_shl_ulong env s v = Some s' /\
              content s' = content s ++ firstn 19 (fmt_u v) ++ [NUL] /\
              mSize s' = mSize s + 20) /\
  (- 2 ^ 63 <= v <= - 10 ^ 18 ->
   exists s', operator_shl_llong env s v = Some s' /\
              operator_shl_long env s v = Some s' /\
              content s' = content s ++ firstn 19 (fmt_d v) ++ [NUL] /\
              mSize s' = mSize s + 20).
Proof.
  intros Hwf Hnw. split; intros Hv.
  - assert (Hl : len (fmt_u v) = 20).
    { unfold len, fmt_u.
      rewrite (digits_of_length 10 ltac:(lia) 19 19 v []); [reflexivity | lia |].
      change (Z.of_nat 19) with 19. change (Z.of_nat 20) with 20. lia. }
    destruct (append_formatted_cut s (fmt_u v) Hwf Hl Hnw) as
      (s' & Ha & _ & Hsz & Hct & _).
    exists s'. repeat (split; [assumption|]). assumption.
  - assert (Hl : len (fmt_d v) = 20).
    { unfold len, fmt_d. replace (v <? 0) with true by (symmetry; apply Z.ltb_lt; lia).
      rewrite length_app. unfold fmt_u.
      rewrite (digits_of_length 10 ltac:(lia) 19 18 (- v) []); [reflexivity | lia |].
      change (Z.of_nat 18) with 18. change (Z.of_nat 19) with 19. lia. }
    destruct (append_formatted_cut s (fmt_d v) Hwf Hl Hnw) as
      (s' & Ha & _ & Hsz & Hct & _).
    exists s'. repeat (split; [assumption|]). assumption.
Qed.

Lemma no_wrap_small (n : Z) : 0 <= n <= 2 ^ 63 -> no_wrap n.
Proof.
  unfold no_wrap, SIZE_MODULUS. intros H.
  assert (n / 4 <= 2 ^ 63 / 4) by (apply Z.div_le_mono; lia).
  change (2 ^ 63 / 4) with (2 ^ 61) in *. lia.
Qed.

(** C4, at the values the claim names: the largest [unsigned long long]
    and the smallest [long long] have a decimal text of 20 bytes; the stream
    receives its first 19 bytes and a null byte in place of the last digit,
    which is not that text. *)
Theorem operator_shl_extreme_values (f : bytes) (l : Z) (sev : LogSeverity) :
  (exists s',
     operator_shl_ullong env (LogStream_new f l sev) 18446744073709551615 = Some s' /\
     mSize s' = 20 /\
     content s' = lit "1844674407370955161" ++ [NUL] /\
     content s' <> fmt_u 18446744073709551615) /\
  (exists s',
     operator_shl_llong env (LogStream_new f l sev) (-9223372036854775808) = Some s' /\
     mSize s' = 20 /\
     content s' = lit "-922337203685477580" ++ [NUL] /\
     content s' <> fmt_d (-9223372036854775808)).
Proof.
  assert (Hnw : no_wrap (mSize (LogStream_new f l sev) + 20)).
  { apply no_wrap_small. simpl. lia. }
  split.
  - destruct (append_formatted_cut (LogStream_new f l sev)
                (fmt_u 18446744073709551615) (wf_new f l sev) eq_refl Hnw)
      as (s' & Ha & _ & Hsz & Hct & _).
    exists s'. split; [exact Ha|]. split; [exact Hsz|].
    assert (Hc : content s' = lit "1844674407370955161" ++ [NUL]).
    { rewrite Hct. vm_compute. reflexivity. }
    split; [exact Hc|]. rewrite Hc. vm_compute. discriminate.
  - destruct (append_formatted_cut (LogStream_new f l sev)
                (fmt_d (-9223372036854775808)) (wf_new f l sev) eq_refl Hnw)
      as (s' & Ha & _ & Hsz & Hct & _).
    exists s'. split; [exact Ha|]. split; [exact Hsz|].
    assert (Hc : content s' = lit "-922337203685477580" ++ [NUL]).
    { rewrite Hct. vm_compute. reflexivity. }
    split; [exact Hc|]. rewrite Hc. vm_compute. discriminate.
Qed.

(** ** The character operator *)

Lemma range_forallb (P : Z -> bool) (lo : Z) (n : nat) :
  forallb P (map (fun i => lo + Z.of_nat i) (seq 0 n)) = true ->
  forall v, lo <= v < lo + Z.of_nat n -> P v = true.
Proof.
  intros H v Hv. rewrite forallb_forall in H. apply H.
  apply in_map_iff. exists (Z.to_nat (v - lo)). split; [lia|].
  apply in_seq. lia.
Qed.

Lemma bytes_eqb_eq (a b : bytes) : bytes_eqb a b = true -> a = b.
Proof.
  unfold bytes_eqb. destruct (list_eq_dec ascii_dec a b); [trivial | discriminate].
Qed.

Lemma escape_temp_byte (ch : Z) :
  0 <= ch < 256 ->
  escape_temp ch
  = lit "\x" ++ [digit_char (ch / 16); digit_char (ch mod 16); NUL].
Proof.
  intros Hch. apply bytes_eqb_eq.
  apply (range_forallb
           (fun v => bytes_eqb (escape_temp v)
                       (lit "\x" ++ [digit_char (v / 16); digit_char (v mod 16); NUL]))
           0 256); [vm_compute; reflexivity | lia].
Qed.

Lemma escape_temp_negative (ch : Z) :
  -128 <= ch < 0 -> escape_temp ch = lit "\xff" ++ [NUL].
Proof.
  intros Hch. apply bytes_eqb_eq.
  apply (range_forallb
           (fun v => bytes_eqb (escape_temp v) (lit "\xff" ++ [NUL]))
           (-128) 128); [vm_compute; reflexivity | lia].
Qed.

Lemma operator_shl_char_escape (s : LogStream) (ch : Z) (text : bytes) :
  wf s -> no_wrap (mSize s + 4) ->
  ch < 32 \/ 127 <= ch ->
  escape_temp ch = text ++ [NUL] -> len text = 4 ->
  exists s', operator_shl_char env s ch = Some s' /\ wf s' /\
             content s' = content s ++ text /\ mSize s' = mSize s + 4.
Proof.
  intros Hwf Hnw Hch Htemp Hlen. unfold operator_shl_char.
  replace ((32 <=? ch) && (ch <? 127)) with false.
  2:{ symmetry. apply andb_false_iff. destruct Hch.
      - left. apply Z.leb_gt. lia.
      - right. apply Z.ltb_ge. lia. }
  fold (escape_temp ch). rewrite Htemp.
  destruct (append_spec s (text ++ [NUL]) 4 Hwf) as
    (s' & Ha & Hwf' & Hsz & Hct & _).
  { unfold INT32_MAX. lia. }
  { unfold len in *. rewrite length_app. simpl. lia. }
  { exact Hnw. }
  exists s'. split; [exact Ha|]. split; [exact Hwf'|]. split; [|exact Hsz].
  rewrite Hct. f_equal. unfold len in Hlen.
  rewrite firstn_app.
  replace (Z.to_nat 4 - List.length text)%nat with 0%nat by lia.
  simpl firstn at 2. rewrite app_nil_r. apply firstn_all2. lia.
Qed.

(** A [char] whose value is in [0..255] is streamed as itself when it is
    printable ASCII (32 to 126), and otherwise as the four bytes of a
    backslash, an [x] and the two lowercase hexadecimal digits of its
    value. *)
Theorem operator_shl_char_byte (s : LogStream) (ch : Z) :
  wf s -> no_wrap (mSize s + 4) -> 0 <= ch < 256 ->
  (32 <= ch < 127 ->
   exists s', operator_shl_char env s ch = Some s' /\ wf s' /\
              content s' = content s ++ [byte_of_char ch] /\
              mSize s' = mSize s + 1) /\
  (ch < 32 \/ 127 <= ch ->
   exists s', operator_shl_char env s ch = Some s' /\ wf s' /\
              content s' = content s ++ lit "\x"
                             ++ [digit_char (ch / 16); digit_char (ch mod 16)] /\
              mSize s' = mSize s + 4).
Proof.
  intros Hwf Hnw Hch. split; intros Hp.
  - unfold operator_shl_char.
    replace ((32 <=? ch) && (ch <? 127)) with true.
    2:{ symmetry. apply andb_true_iff. split; [apply Z.leb_le | apply Z.ltb_lt]; lia. }
    destruct (append_spec s [byte_of_char ch] 1 Hwf) as
      (s' & Ha & Hwf' & Hsz & Hct & _).
    { unfold INT32_MAX. lia. }
    { unfold len. simpl. lia. }
    { eapply no_wrap_le; [|exact Hnw]. destruct Hwf as [[? ?] _]. lia. }
    exists s'. repeat (split; [assumption|]). exact Hsz.
  - destruct (operator_shl_char_escape s ch
                (lit "\x" ++ [digit_char (ch / 16); digit_char (ch mod 16)])
                Hwf Hnw Hp) as (s' & H).
    { rewrite (escape_temp_byte ch Hch). reflexivity. }
    { reflexivity. }
    exists s'. exact H.
Qed.

(** A [char] of negative value, as the bytes [0x80] to [0xff] are where
    [char] is signed, is streamed as the four bytes of [\xff], whatever
    its value. *)
Theorem operator_shl_char_negative (s : LogStream) (ch : Z) :
  wf s -> no_wrap (mSize s + 4) -> -128 <= ch < 0 ->
  exists s', operator_shl_char env s ch = Some s' /\ wf s' /\
             content s' = content s ++ lit "\xff" /\
             mSize s' = mSize s + 4.
Proof.
  intros Hwf Hnw Hch.
  apply (operator_shl_char_escape s ch (lit "\xff") Hwf Hnw).
  - left. lia.
  - apply escape_temp_negative. exact Hch.
  - reflexivity.
Qed.

(** C5, at the byte [0x80], which is the [char] of value [-128]: the
    stream receives [\xff], not the digits [80] of the byte. *)
Theorem operator_shl_char_0x80 (f : bytes) (l : Z) (sev : LogSeverity) :
  byte_of_char (-128) = ascii_of_N 128 /\
  exists s',
    operator_shl_char env (LogStream_new f l sev) (-128) = Some s' /\
    content s' = lit "\xff" /\
    content s' <> lit "\x80".
Proof.
  split; [reflexivity|].
  destruct (operator_shl_char_escape (LogStream_new f l sev) (-128)
              (lit "\xff") (wf_new f l sev)) as (s' & Ha & _ & Hct & _).
  { apply no_wrap_small. simpl. lia. }
  { left. lia. }
  { apply escape_temp_negative. lia. }
  { reflexivity. }
  exists s'. split; [exact Ha|]. simpl in Hct. split; [exact Hct|].
  rewrite Hct. discriminate.
Qed.

(** ** Dispatch *)







(** ** Installing a sink *)

(** C7: [setNewOutput] stores the new sink and returns the one that was
    installed; from no sink, installing S1 then S2 returns the null pointer
    then S1, and every dispatch made while S2 stays installed is the call
    of S2 with the same parameters, message and length, and nothing else. *)
Theorem setNewOutput_swaps (p : Process) (S1 S2 : Z) :
  gLogOutput p = 0 -> S2 <> 0 ->
  let (r1, p1) := setNewOutput S1 p in
  let (r2, p2) := setNewOutput S2 p1 in
  r1 = 0 /\ r2 = S1 /\ gLogOutput p2 = S2 /\
  forall (q : Process) (params : LogParams) (message : bytes) (messageLen : Z),
    gLogOutput q = gLogOutput p2 ->
    logMessage env params message messageLen q
    = LogOutput_logMessage env S2 params message messageLen q.
Proof.
  intros Hnull HS2. simpl. repeat split; try assumption.
  intros q params message messageLen Hq. unfold logMessage. rewrite Hq.
  replace (S2 =? 0) with false; [reflexivity|].
  symmetry. apply Z.eqb_neq. exact HS2.
Qed.

(** ** The errno-decorated record *)

Lemma ErrnoLogMessage_delete_restores_aux (m : ErrnoLogMessage) (p : Process) :
  wf (eStream m) ->
  strlen (strerror env (mErrno m)) <= INT32_MAX ->
  no_wrap (mSize (eStream m) + 15 + strlen (strerror env (mErrno m))) ->
  exists s2,
    content s2
      = content (eStream m) ++ lit "Error message: "
          ++ cstr (strerror env (mErrno m)) /\
    mSize s2 = mSize (eStream m) + 15 + strlen (strerror env (mErrno m)) /\
    mParams s2 = mParams (eStream m) /\
    ErrnoLogMessage_delete env m p
      = match logMessage env (mParams s2) (mString s2) (mSize s2)
                (set_errno (libc_errno env (errno p)) p) with
        | Returns _ p2 => Returns tt (set_errno (mErrno m) p2)
        | Exits status p2 => Exits status p2
        | Hangs => Hangs
        end.
Proof.
  intros Hwf Hmax Hnw.
  assert (Hlen : 0 <= strlen (strerror env (mErrno m))) by (unfold strlen, len; lia).
  assert (Hs0 : 0 <= mSize (eStream m)) by (destruct Hwf as [[? ?] _]; assumption).
  destruct (append_cstr_spec (eStream m) (lit "Error message: ") Hwf) as
    (s1 & H1 & Hwf1 & Hsz1 & Hct1 & _ & Hp1).
  { change (strlen (lit "Error message: ")) with 15. unfold INT32_MAX. lia. }
  { change (strlen (lit "Error message: ")) with 15.
    eapply no_wrap_le; [|exact Hnw]. lia. }
  change (strlen (lit "Error message: ")) with 15 in Hsz1.
  change (cstr (lit "Error message: ")) with (lit "Error message: ") in Hct1.
  destruct (append_cstr_spec s1 (strerror env (mErrno m)) Hwf1 Hmax) as
    (s2 & H2 & Hwf2 & Hsz2 & Hct2 & _ & Hp2).
  { rewrite Hsz1. exact Hnw. }
  exists s2. split; [|split; [|split]].
  - rewrite Hct2, Hct1, <- app_assoc. reflexivity.
  - rewrite Hsz2, Hsz1. reflexivity.
  - congruence.
  - unfold ErrnoLogMessage_delete, operator_shl_cstr. rewrite H1, H2.
    reflexivity.
Qed.

(** C6: for every errno-decorated record that captured the error code [e],
    the destructor first appends "Error message: " and the description
    [strerror] gives for [e] to the text of the record, then dispatches the
    record with that text, and when it returns [errno] is [e], whatever
    the calls in between left in it. *)
Theorem ErrnoLogMessage_delete_restores (m : ErrnoLogMessage) (p : Process) :
  wf (eStream m) ->
  strlen (strerror env (mErrno m)) <= INT32_MAX ->
  no_wrap (mSize (eStream m) + 15 + strlen (strerror env (mErrno m))) ->
  exists s2,
    content s2
      = content (eStream m) ++ lit "Error message: "
          ++ cstr (strerror env (mErrno m)) /\
    mSize s2 = mSize (eStream m) + 15 + strlen (strerror env (mErrno m)) /\
    mParams s2 = mParams (eStream m) /\
    ErrnoLogMessage_delete env m p
      = match logMessage env (mParams s2) (mString s2) (mSize s2)
                (set_errno (libc_errno env (errno p)) p) with
        | Returns _ p2 => Returns tt (set_errno (mErrno m) p2)
        | Exits status p2 => Exits status p2
        | Hangs => Hangs
        end /\
    forall u p', ErrnoLogMessage_delete env m p = Returns u p' ->
                 errno p' = mErrno m.
Proof.
  intros Hwf Hmax Hnw.
  destruct (ErrnoLogMessage_delete_restores_aux m p Hwf Hmax Hnw) as
    (s2 & Hct & Hsz & Hpar & Hrun).
  exists s2. split; [exact Hct|]. split; [exact Hsz|]. split; [exact Hpar|].
  split; [exact Hrun|].
  intros u p' Hret. rewrite Hrun in Hret.
  destruct (logMessage env (mParams s2) (mString s2) (mSize s2)
              (set_errno (libc_errno env (errno p)) p));
    try discriminate.
  injection Hret as _ <-. reflexivity.
Qed.

(** ** Further properties of the buffer *)

(** An append of [n] bytes, [0 < n <= INT32_MAX], on a well-formed stream
    keeps it well-formed, never shrinks the capacity, leaves capacity and
    block alone when the bytes fit, and otherwise grows the capacity to no
    more than [size + n + (size + n) / 4 + 32]; the parameters of the
    record are not touched. *)
Theorem append_capacity (s : LogStream) (str : bytes) (n : Z) :
  wf s -> 0 < n <= INT32_MAX -> n <= len str -> no_wrap (mSize s + n) ->
  exists s',
    append env s str n = Some s' /\ wf s' /\
    mCapacity s <= mCapacity s' /\
    (mSize s + n <= mCapacity s ->
     mCapacity s' = mCapacity s /\ len (mString s') = len (mString s)) /\
    (mCapacity s < mSize s + n ->
     mSize s + n <= mCapacity s' <= mSize s + n + (mSize s + n) / 4 + 32) /\
    mParams s' = mParams s.
Proof.
  intros Hwf Hn Hstr Hnw.
  destruct (append_spec s str n Hwf Hn Hstr Hnw) as
    (s' & Ha & Hwf' & Hsz & _ & _ & Hcap & Hpar & Hfit & Hbound).
  exists s'. split; [exact Ha|]. split; [exact Hwf'|]. split; [exact Hcap|].
  split; [exact Hfit|]. split; [|exact Hpar].
  intros Hgrow. destruct Hwf' as [[_ Hle] _]. lia.
Qed.

(** Appending two chunks whose lengths add up to at most [INT32_MAX] one
    after the other gives the text and the length that appending their
    concatenation gives. *)
Theorem append_all_app (s : LogStream) (a b : bytes) :
  wf s -> len a + len b <= INT32_MAX ->
  no_wrap (mSize s + len a + len b) ->
  exists s2 s12,
    append_all env s [a; b] = Some s2 /\
    append_all env s [a ++ b] = Some s12 /\
    content s2 = content s12 /\ mSize s2 = mSize s12 /\
    content s2 = content s ++ a ++ b.
Proof.
  intros Hwf Hmax Hnw.
  assert (Ha : 0 <= len a) by (unfold len; lia).
  assert (Hb : 0 <= len b) by (unfold len; lia).
  assert (Hab : len (a ++ b) = len a + len b).
  { unfold len. rewrite length_app. lia. }
  destruct (append_all_spec [a; b] s Hwf) as (s2 & H2 & _ & Hsz2 & Hct2 & _).
  { intros c [<-|[<-|[]]]; lia. }
  { simpl. replace (mSize s + (len a + (len b + 0)))
      with (mSize s + len a + len b) by lia. exact Hnw. }
  destruct (append_all_spec [a ++ b] s Hwf) as (s12 & H12 & _ & Hsz12 & Hct12 & _).
  { intros c [<-|[]]. lia. }
  { simpl. rewrite Hab. replace (mSize s + (len a + len b + 0))
      with (mSize s + len a + len b) by lia. exact Hnw. }
  exists s2, s12. split; [exact H2|]. split; [exact H12|].
  simpl in Hct2, Hct12, Hsz2, Hsz12. rewrite app_nil_r in Hct2, Hct12.
  split; [congruence|]. split; [lia|]. exact Hct2.
Qed.

(** For a C string of at most [INT32_MAX] bytes, the C-string operator
    appends the bytes of its argument that come before the first null byte
    and none after it. *)
Theorem operator_shl_cstr_spec (s : LogStream) (mem : bytes) :
  wf s -> strlen mem <= INT32_MAX -> no_wrap (mSize s + strlen mem) ->
  exists s',
    operator_shl_cstr env s (Some mem) = Some s' /\ wf s' /\
    content s' = content s ++ cstr mem /\
    mSize s' = mSize s + strlen mem /\
    (forall c, In c (cstr mem) -> is_nul c = false).
Proof.
  intros Hwf Hmax Hnw.
  destruct (append_cstr_spec s mem Hwf Hmax Hnw) as
    (s' & Ha & Hwf' & Hsz & Hct & _).
  exists s'. split; [exact Ha|]. split; [exact Hwf'|]. split; [exact Hct|].
  split; [exact Hsz|]. apply cstr_no_nul.
Qed.

(** Where [%p] renders a pointer as the GNU library does, "(nil)" or "0x"
    and up to 16 hexadecimal digits, every 64-bit pointer is streamed
    whole. *)
Theorem operator_shl_ptr_whole (s : LogStream) (ptr : Z) :
  wf s -> no_wrap (mSize s + 20) -> 0 <= ptr < 2 ^ 64 ->
  fmt_p env ptr = glibc_fmt_p ptr ->
  exists s', operator_shl_ptr env s ptr = Some s' /\ wf s' /\
             content s' = content s ++ glibc_fmt_p ptr /\
             mSize s' = mSize s + len (glibc_fmt_p ptr) /\
             len (glibc_fmt_p ptr) <= 18.
Proof.
  intros Hwf Hnw Hptr Hfmt.
  assert (Hl : 1 <= len (glibc_fmt_p ptr) <= 18).
  { unfold glibc_fmt_p. destruct (ptr =? 0); [vm_compute; split; discriminate|].
    unfold len. rewrite length_app.
    pose proof (digits_of_length_le 16 15 ltac:(lia) 15 ptr []) as H.
    change (List.length (@nil ascii)) with 0%nat in H.
    change (List.length (lit "0x")) with 2%nat.
    assert (16 ^ Z.of_nat 16 = 2 ^ 64) by reflexivity. lia. }
  unfold operator_shl_ptr. rewrite Hfmt.
  destruct (append_formatted_whole s (glibc_fmt_p ptr) Hwf) as
    (s' & Ha & Hwf' & Hsz & Hct & _); [lia | apply no_wrap_20; [assumption|lia|assumption] |].
  exists s'. repeat (split; [assumption|]). lia.
Qed.

(** ** Further properties of the dispatch *)






(** ** LogString *)

Lemma LogString_loop_step (fuel : nat) (capacity : Z) (out : bytes) :
  LogString_loop env (S fuel) capacity out
  = let stored :=
      if capacity =? 0 then 0 else Z.min (len out) (capacity - 1) + 1 in
    if stored >? 100 then Overrun capacity
    else
      let text := firstn (Z.to_nat (capacity - 1)) out ++ [NUL] in
      let message :=
        text ++ map (uninit env)
                  (seq (List.length text) (100 - List.length text)) in
      let ret := if len out >? INT32_MAX then -1 else len out in
      if (ret >=? 0) && (size_t ret <? capacity) then Built message
      else LogString_loop env fuel (size_t (capacity * 2)) out.
Proof. reflexivity. Qed.

(** A text of fewer than 100 bytes is built in the 100-byte block, with its
    terminator; a text of 100 bytes or more makes the constructor call
    [vsnprintf] with a capacity of 200 on that same block, which is never
    reallocated, and the call writes past its end. *)
Theorem LogString_new_cases (out : bytes) :
  (len out < 100 ->
   exists message,
     LogString_new env out = Built message /\
     List.length message = 100%nat /\
     firstn (List.length out + 1) message = out ++ [NUL]) /\
  (100 <= len out -> LogString_new env out = Overrun 200).
Proof.
  unfold LogString_new. split; intros Hlen.
  - change 64%nat with (S 63). rewrite LogString_loop_step. cbv zeta.
    change (100 =? 0) with false. cbv iota.
    assert (Hout : (List.length out < 100)%nat) by (unfold len in Hlen; lia).
    replace (Z.min (len out) (100 - 1) + 1 >? 100) with false
      by (symmetry; rewrite Z.gtb_ltb; apply Z.ltb_ge; lia).
    replace (len out >? INT32_MAX) with false
      by (symmetry; rewrite Z.gtb_ltb; apply Z.ltb_ge; unfold INT32_MAX; lia).
    assert (Hpos : 0 <= len out) by (unfold len; lia).
    rewrite size_t_small by (unfold SIZE_MODULUS; lia).
    replace ((len out >=? 0) && (len out <? 100)) with true.
    2:{ symmetry. apply andb_true_iff. split.
        - rewrite Z.geb_leb. apply Z.leb_le. lia.
        - apply Z.ltb_lt. lia. }
    rewrite firstn_all2 by (change (Z.to_nat (100 - 1)) with 99%nat; lia).
    eexists. split; [reflexivity|]. split.
    + rewrite !length_app, length_map, length_seq. simpl List.length. lia.
    + rewrite firstn_app.
      replace (List.length out + 1 - List.length (out ++ [NUL]))%nat with 0%nat
        by (rewrite length_app; simpl; lia).
      rewrite firstn_all2 by (rewrite length_app; simpl; lia).
      simpl. apply app_nil_r.
  - change 64%nat with (S (S 62)). rewrite LogString_loop_step. cbv zeta.
    change (100 =? 0) with false. cbv iota.
    replace (Z.min (len out) (100 - 1) + 1 >? 100) with false
      by (symmetry; rewrite Z.gtb_ltb; apply Z.ltb_ge; lia).
    assert (Hret : (let ret := if len out >? INT32_MAX then -1 else len out in
                    (ret >=? 0) && (size_t ret <? 100)) = false).
    { cbv zeta. destruct (len out >? INT32_MAX) eqn:E; [reflexivity|].
      rewrite Z.gtb_ltb in E. apply Z.ltb_ge in E. unfold INT32_MAX in E.
      rewrite size_t_small by (unfold SIZE_MODULUS; lia).
      apply andb_false_iff. right. apply Z.ltb_ge. lia. }
    cbv zeta in Hret. rewrite Hret.
    change (size_t (100 * 2)) with 200.
    rewrite LogString_loop_step. cbv zeta.
    change (200 =? 0) with false. cbv iota.
    replace (Z.min (len out) (200 - 1) + 1 >? 100) with true
      by (symmetry; rewrite Z.gtb_ltb; apply Z.ltb_lt; lia).
    reflexivity.
Qed.

(** ** The DCHECK level and the sink pointer as saved and restored *)

(** [setDcheckLevel] returns the level that was set and leaves the new one
    to be read by [dcheckIsEnabled]; setting the returned level again puts
    the process back as it was and returns the level in between. *)
Theorem setDcheckLevel_restores (enabled : bool) (p : Process) :
  let (old, p1) := setDcheckLevel enabled p in
  let (mid, p2) := setDcheckLevel old p1 in
  old = dcheckIsEnabled p /\ dcheckIsEnabled p1 = enabled /\
  gLogOutput p1 = gLogOutput p /\ mid = enabled /\ p2 = p.
Proof. destruct p. simpl. repeat split. Qed.

(** Installing a sink and then installing what [setNewOutput] returned
    puts the process back as it was, so that every dispatch is again what
    it was before; the second call returns the sink in between. *)
Theorem setNewOutput_restores (newOutput : Z) (p : Process) :
  let (old, p1) := setNewOutput newOutput p in
  let (mid, p2) := setNewOutput old p1 in
  mid = newOutput /\ p2 = p /\
  gDcheckLevel p1 = gDcheckLevel p /\
  forall params message messageLen,
    logMessage env params message messageLen p2
    = logMessage env params message messageLen p.
Proof. destruct p. simpl. repeat split. Qed.

End Properties.

(** * The statements at concrete inputs *)

Lemma no_wrap_demo (n : Z) : 0 <= n <= 1000 -> no_wrap n.
Proof. intros H. apply no_wrap_small. lia. Qed.

Lemma append_no_op_witness :
  append demo_env demo_stream (lit "abc") 0 = Some demo_stream /\
  append demo_env demo_stream (lit "abc") (2 ^ 31) = Some demo_stream /\
  append_cstr demo_env demo_stream (Some [NUL; "a"%char]) = Some demo_stream.
Proof.
  split; [|split].
  - apply (proj1 (append_no_op demo_env demo_stream (lit "abc") 0 [])).
    left. reflexivity.
  - apply (proj1 (append_no_op demo_env demo_stream (lit "abc") (2 ^ 31) [])).
    right. reflexivity.
  - apply (proj2 (proj2 (append_no_op demo_env demo_stream [] 0 [NUL; "a"%char]))).
    reflexivity.
Defined.

Lemma append_all_fresh_witness :
  exists s',
    append_all demo_env (LogStream_new (lit "f.cc") 10 LOG_WARNING)
      [lit "ab"; []; lit "c"] = Some s' /\
    mSize s' = 3 /\ content s' = lit "abc" /\
    nth_error (mString s') 3 = Some NUL.
Proof.
  destruct (append_all_fresh demo_env (lit "f.cc") 10 LOG_WARNING
              [lit "ab"; []; lit "c"]) as (s' & Ha & Hsz & Hct & _ & Hnul).
  - intros chunk Hin. simpl in Hin.
    destruct Hin as [H|[H|[H|H]]]; try contradiction; subst chunk;
      vm_compute; discriminate.
  - apply no_wrap_demo. vm_compute. split; discriminate.
  - exists s'. split; [exact Ha|]. split; [exact Hsz|]. split; [exact Hct|].
    apply Hnul. reflexivity.
Defined.

(** C3, as the claim states it, fails on a chunk of [2^31] bytes: the append
    drops it, and the buffer is empty where the total length is [2^31]. *)
Lemma append_all_drops_large_chunk :
  total_length [large_chunk] = 2 ^ 31 /\
  append_all demo_env (LogStream_new (lit "f.cc") 10 LOG_INFO) [large_chunk]
    = Some (LogStream_new (lit "f.cc") 10 LOG_INFO) /\
  mSize (LogStream_new (lit "f.cc") 10 LOG_INFO) <> total_length [large_chunk].
Proof.
  assert (Hlen : len large_chunk = 2 ^ 31).
  { unfold len, large_chunk. rewrite repeat_length. apply Z2Nat.id. lia. }
  assert (Htot : total_length [large_chunk] = 2 ^ 31).
  { unfold total_length. cbn [fold_right]. rewrite Hlen. reflexivity. }
  split; [exact Htot|]. split.
  - cbn [append_all]. rewrite Hlen.
    rewrite append_skip by (right; reflexivity). reflexivity.
  - rewrite Htot. discriminate.
Qed.

Lemma append_terminates_witness :
  (exists turns r,
     grow 3 0 = Some r /\ r = grow_iter turns 0 /\ 3 <= r /\
     32 * Z.of_N turns < 35) /\
  exists s', append demo_env demo_stream (lit "abc") 3 = Some s'.
Proof.
  destruct (append_terminates demo_env demo_stream (lit "abc") 3)
    as [(turns & r & Hg & Hr & Hle & _ & Hcount) Hret].
  - simpl. lia.
  - simpl. lia.
  - unfold INT32_MAX. lia.
  - apply no_wrap_demo. simpl. lia.
  - split; [|exact Hret]. exists turns, r. repeat split; assumption.
Defined.

(** The bound on the sizes cannot be dropped from the termination of the
    loop: next to the top of [size_t] a turn wraps around, and the loop
    asked for [2^64 - 1] from [2^64 - 2] stays below it for ever. *)
Lemma grow_wraps_for_ever :
  grow_step (SIZE_MODULUS - 2) = 2 ^ 62 + 29 /\
  (forall turns, grow_iter turns (SIZE_MODULUS - 2) < SIZE_MODULUS - 1) /\
  grow (SIZE_MODULUS - 1) (SIZE_MODULUS - 2) = None.
Proof.
  assert (Hlow : forall turns,
            grow_iter turns (SIZE_MODULUS - 2) < SIZE_MODULUS - 1).
  { intros turns. apply grow_iter_avoids_max.
    - unfold SIZE_MODULUS. lia.
    - vm_compute. reflexivity. }
  split; [vm_compute; reflexivity|]. split; [exact Hlow|].
  apply grow_never_ends. exact Hlow.
Qed.





(** C2, at the record of file "f.cc", line 10 and severity INFO streamed
    with the largest [unsigned long long] and "x": its text is 21 bytes
    long, the 19 digits the 20-byte array kept, the null byte that took the
    place of the last digit and "x"; standard error receives
    "INFO:f.cc:10:" and the 19 digits, which is not the text of the
    record. *)
Lemma default_format_cut_at_nul :
  match operator_shl_ullong demo_env (LogMessage_new (lit "f.cc") 10 LOG_INFO)
          18446744073709551615 with
  | Some s1 =>
      match operator_shl_cstr demo_env s1 (Some (lit "x")) with
      | Some s2 =>
          match LogMessage_delete demo_env s2 fresh_process with
          | Returns _ p' =>
              mSize s2 = 21 /\
              content s2 = lit "1844674407370955161" ++ [NUL] ++ lit "x" /\
              stderr_written p' = lit "INFO:f.cc:10:1844674407370955161" ++ [LF] /\
              stderr_written p'
              <> lit "INFO:f.cc:10:" ++ content s2 ++ [LF]
          | _ => False
          end
      | None => False
      end
  | None => False
  end.
Proof. vm_compute. repeat split. discriminate. Qed.

Lemma setNewOutput_swaps_witness :
  fst (setNewOutput 1 fresh_process) = 0 /\
  fst (setNewOutput 2 (snd (setNewOutput 1 fresh_process))) = 1 /\
  logMessage recording_env (mkLogParams (lit "f.cc") 10 LOG_WARNING)
    (lit "hello") 5 (snd (setNewOutput 2 (snd (setNewOutput 1 fresh_process))))
  = Returns tt (mkProcess 2 false 5 [] (lit "2|f.cc|10|1|hello|5")).
Proof.
  pose proof (setNewOutput_swaps recording_env fresh_process 1 2 eq_refl
                ltac:(discriminate)) as H.
  simpl in H. destruct H as (H1 & H2 & _ & Hfwd).
  split; [exact H1|]. split; [exact H2|].
  simpl snd. rewrite Hfwd by reflexivity. reflexivity.
Defined.

Lemma ErrnoLogMessage_delete_restores_witness :
  exists p',
    ErrnoLogMessage_delete recording_env
      (ErrnoLogMessage_new (lit "f.cc") 10 LOG_ERROR 2) sink_process
    = Returns tt p' /\
    errno p' = 2 /\
    stderr_pending p'
    = lit "1|f.cc|10|2|Error message: No such file or directory|40".
Proof.
  destruct (ErrnoLogMessage_delete_restores recording_env
              (ErrnoLogMessage_new (lit "f.cc") 10 LOG_ERROR 2) sink_process)
    as (s2 & _ & _ & _ & _ & Hres).
  - apply wf_new.
  - vm_compute. discriminate.
  - apply no_wrap_demo. vm_compute. split; discriminate.
  - eexists. split; [vm_compute; reflexivity|]. split.
    + apply (Hres tt). vm_compute. reflexivity.
    + reflexivity.
Defined.

Lemma no_wrap_fresh (f : bytes) (l : Z) (sev : LogSeverity) (n : Z) :
  0 <= n <= 1000 -> no_wrap (mSize (LogStream_new f l sev) + n).
Proof. intros H. apply no_wrap_demo. simpl. lia. Qed.

Lemma operator_shl_32bit_whole_witness :
  (exists s', operator_shl_int demo_env demo_stream (-2147483648) = Some s' /\
              content s' = lit "-2147483648") /\
  (exists s', operator_shl_unsigned demo_env demo_stream 4294967295 = Some s' /\
              content s' = lit "4294967295").
Proof.
  split.
  - destruct (operator_shl_32bit_whole demo_env demo_stream (-2147483648)
                (wf_new _ _ _) (no_wrap_fresh _ _ _ 20 ltac:(lia))) as [H _].
    destruct H as (s' & Ha & _ & Hct & _); [lia|].
    exists s'. split; [exact Ha | exact Hct].
  - destruct (operator_shl_32bit_whole demo_env demo_stream 4294967295
                (wf_new _ _ _) (no_wrap_fresh _ _ _ 20 ltac:(lia))) as [_ H].
    destruct H as (s' & Ha & _ & Hct & _); [lia|].
    exists s'. split; [exact Ha | exact Hct].
Defined.

Lemma operator_shl_64bit_whole_witness :
  (exists s', operator_shl_llong demo_env demo_stream 9223372036854775807 = Some s' /\
              content s' = lit "9223372036854775807") /\
  (exists s', operator_shl_ullong demo_env demo_stream 9999999999999999999 = Some s' /\
              content s' = lit "9999999999999999999").
Proof.
  split.
  - destruct (operator_shl_64bit_whole demo_env demo_stream 9223372036854775807
                (wf_new _ _ _) (no_wrap_fresh _ _ _ 20 ltac:(lia))) as [H _].
    destruct H as (s' & Ha & _ & _ & Hct & _); [lia|].
    exists s'. split; [exact Ha | exact Hct].
  - destruct (operator_shl_64bit_whole demo_env demo_stream 9999999999999999999
                (wf_new _ _ _) (no_wrap_fresh _ _ _ 20 ltac:(lia))) as [_ H].
    destruct H as (s' & Ha & _ & _ & Hct & _); [lia|].
    exists s'. split; [exact Ha | exact Hct].
Defined.

Lemma operator_shl_64bit_cut_witness :
  (exists s', operator_shl_ullong demo_env demo_stream 10000000000000000000 = Some s' /\
              content s' = lit "1000000000000000000" ++ [NUL]) /\
  (exists s', operator_shl_llong demo_env demo_stream (-1000000000000000000) = Some s' /\
              content s' = lit "-100000000000000000" ++ [NUL]).
Proof.
  split.
  - destruct (operator_shl_64bit_cut demo_env demo_stream 10000000000000000000
                (wf_new _ _ _) (no_wrap_fresh _ _ _ 20 ltac:(lia))) as [H _].
    destruct H as (s' & Ha & _ & Hct & _); [lia|].
    exists s'. split; [exact Ha | exact Hct].
  - destruct (operator_shl_64bit_cut demo_env demo_stream (-1000000000000000000)
                (wf_new _ _ _) (no_wrap_fresh _ _ _ 20 ltac:(lia))) as [_ H].
    destruct H as (s' & Ha & _ & Hct & _); [lia|].
    exists s'. split; [exact Ha | exact Hct].
Defined.

Lemma operator_shl_char_byte_witness :
  (exists s', operator_shl_char demo_env demo_stream 65 = Some s' /\
              content s' = lit "A" /\ mSize s' = 1) /\
  (exists s', operator_shl_char demo_env demo_stream 1 = Some s' /\
              content s' = lit "\x01" /\ mSize s' = 4).
Proof.
  split.
  - destruct (operator_shl_char_byte demo_env demo_stream 65
                (wf_new _ _ _) (no_wrap_fresh _ _ _ 4 ltac:(lia)) ltac:(lia))
      as [H _].
    destruct H as (s' & Ha & _ & Hct & Hsz); [lia|].
    exists s'. split; [exact Ha|]. split; [exact Hct | exact Hsz].
  - destruct (operator_shl_char_byte demo_env demo_stream 1
                (wf_new _ _ _) (no_wrap_fresh _ _ _ 4 ltac:(lia)) ltac:(lia))
      as [_ H].
    destruct H as (s' & Ha & _ & Hct & Hsz); [lia|].
    exists s'. split; [exact Ha|]. split; [exact Hct | exact Hsz].
Defined.

Lemma operator_shl_char_negative_witness :
  exists s', operator_shl_char demo_env demo_stream (-2) = Some s' /\
             content s' = lit "\xff" /\ mSize s' = 4.
Proof.
  destruct (operator_shl_char_negative demo_env demo_stream (-2)
              (wf_new _ _ _) (no_wrap_fresh _ _ _ 4 ltac:(lia)) ltac:(lia))
    as (s' & Ha & _ & Hct & Hsz).
  exists s'. split; [exact Ha|]. split; [exact Hct | exact Hsz].
Defined.

Lemma append_capacity_witness :
  exists s', append demo_env demo_stream (lit "abc") 3 = Some s' /\
             3 <= mCapacity s' <= 35.
Proof.
  destruct (append_capacity demo_env demo_stream (lit "abc") 3 (wf_new _ _ _))
    as (s' & Ha & _ & _ & _ & Hgrow & _).
  - unfold INT32_MAX. lia.
  - vm_compute. discriminate.
  - apply no_wrap_fresh. lia.
  - exists s'. split; [exact Ha|]. simpl in Hgrow. apply Hgrow. lia.
Defined.

Lemma append_all_app_witness :
  exists s2 s12,
    append_all demo_env demo_stream [lit "ab"; lit "cd"] = Some s2 /\
    append_all demo_env demo_stream [lit "abcd"] = Some s12 /\
    content s2 = content s12 /\ content s2 = lit "abcd".
Proof.
  destruct (append_all_app demo_env demo_stream (lit "ab") (lit "cd") (wf_new _ _ _))
    as (s2 & s12 & H2 & H12 & Heq & _ & Hct).
  - vm_compute. discriminate.
  - apply no_wrap_demo. vm_compute. split; discriminate.
  - exists s2, s12. repeat (split; [assumption|]). exact Hct.
Defined.

Lemma operator_shl_cstr_spec_witness :
  exists s',
    operator_shl_cstr demo_env demo_stream (Some (lit "ab" ++ [NUL] ++ lit "cd"))
      = Some s' /\
    content s' = lit "ab" /\ mSize s' = 2.
Proof.
  destruct (operator_shl_cstr_spec demo_env demo_stream
              (lit "ab" ++ [NUL] ++ lit "cd") (wf_new _ _ _))
    as (s' & Ha & _ & Hct & Hsz & _).
  - vm_compute. discriminate.
  - apply no_wrap_demo. vm_compute. split; discriminate.
  - exists s'. split; [exact Ha|]. split; [exact Hct | exact Hsz].
Defined.

Lemma operator_shl_ptr_whole_witness :
  exists s',
    operator_shl_ptr demo_env demo_stream 18446744073709551615 = Some s' /\
    content s' = lit "0xffffffffffffffff".
Proof.
  destruct (operator_shl_ptr_whole demo_env demo_stream 18446744073709551615
              (wf_new _ _ _) (no_wrap_fresh _ _ _ 20 ltac:(lia)) ltac:(lia) eq_refl)
    as (s' & Ha & _ & Hct & _).
  exists s'. split; [exact Ha | exact Hct].
Defined.




Lemma LogString_new_cases_witness :
  (exists message,
     LogString_new demo_env (lit "hello") = Built message /\
     firstn 6 message = lit "hello" ++ [NUL]) /\
  LogString_new demo_env (repeat "a"%char 100) = Overrun 200.
Proof.
  destruct (LogString_new_cases demo_env (lit "hello")) as [Hshort _].
  destruct (LogString_new_cases demo_env (repeat "a"%char 100)) as [_ Hlong].
  split.
  - destruct Hshort as (message & Hb & _ & Hpre); [vm_compute; reflexivity|].
    exists message. split; [exact Hb | exact Hpre].
  - apply Hlong. vm_compute. discriminate.
Defined.
